(** * Natural cubic spline interpolator: [src/interpolator.py]

    A shallow embedding of [CubicSplineInterpolator] and the properties of
    its construction ([build], [solve_equations_system]) and evaluation
    ([interpolate], [get_interpolation_error]).

    Numbers.  The program computes on IEEE doubles.  The embedding keeps
    the algebra and drops the rounding: a finite double is a rational
    ([Q], compared with [==]), and every value that a division by zero
    produces or contaminates (numpy's [inf] and [nan]) is the single value
    [NonFinite], which no arithmetic operation turns back into a finite
    number (IEEE arithmetic can: a quotient by an infinity is a zero; the
    embedding does not follow a run that far, and a [NonFinite] result
    says that the run has left exact arithmetic).  The samples and the
    queries are finite Python floats, hence of type [Q].

    Divisions.  A quotient of two Python floats raises
    [ZeroDivisionError] on a zero divisor ([truediv]); a quotient with a
    numpy scalar in it ([alpha], [beta] and what is computed from them)
    gives [inf] or [nan] and a warning instead ([np_truediv]).  The
    quotients by the literals [2.0] and [6.0] cannot raise and are
    written with [np_truediv] too.

    Exceptions.  Python's exceptions are the [Raise] branch of [result].
    Indexing follows Python: a negative index counts from the end, an
    index out of range raises [IndexError]. *)

From Stdlib Require Import ZArith QArith Qpower Lia Lra Lqa Bool.
From stdpp Require Import base list strings pretty.

(** ** Python's exceptions and sequences *)

Inductive exn : Type :=
| IndexError
| ZeroDivisionError
| ValueError
| RuntimeError.

Inductive result (A : Type) : Type :=
| Ok (v : A)
| Raise (e : exn).

Arguments Ok {A} v.
Arguments Raise {A} e.

Definition bind {A B : Type} (m : result A) (k : A -> result B) : result B :=
  match m with
  | Ok v => k v
  | Raise e => Raise e
  end.

Notation "x <- m ;; k" := (bind m (fun x => k))
  (at level 100, m at level 99, k at level 200, right associativity).

(** [l[i]] for a Python list or a one-dimensional numpy array. *)
Definition norm_index (n : nat) (i : Z) : option nat :=
  let j := (if i <? 0 then i + Z.of_nat n else i)%Z in
  if ((j <? 0) || (Z.of_nat n <=? j))%Z then None else Some (Z.to_nat j).

Definition getitem {A : Type} (l : list A) (i : Z) : result A :=
  match norm_index (length l) i with
  | Some k =>
      match l !! k with
      | Some v => Ok v
      | None => Raise IndexError
      end
  | None => Raise IndexError
  end.

(** [l[i] = v] on an array, and [l[i].field = v] on a list of objects
    ([upd] rewrites the field of the object stored at [i]). *)
Definition setattr {A : Type} (l : list A) (i : Z) (upd : A -> A)
  : result (list A) :=
  match norm_index (length l) i with
  | Some k =>
      match l !! k with
      | Some v => Ok (<[k := upd v]> l)
      | None => Raise IndexError
      end
  | None => Raise IndexError
  end.

Definition setitem {A : Type} (l : list A) (i : Z) (v : A) : result (list A) :=
  setattr l i (fun _ => v).

(** [range(start, stop)] and [range(start, stop, -1)]. *)
Definition range (start stop : Z) : list Z :=
  map (fun k => (start + Z.of_nat k)%Z) (seq 0 (Z.to_nat (stop - start))).

Definition range_down (start stop : Z) : list Z :=
  map (fun k => (start - Z.of_nat k)%Z) (seq 0 (Z.to_nat (start - stop))).

(** [for i in idx: st = body(i, st)]. *)
Fixpoint for_each {S : Type} (idx : list Z) (body : Z -> S -> result S)
    (st : S) : result S :=
  match idx with
  | [] => Ok st
  | i :: idx' => st' <- body i st ;; for_each idx' body st'
  end.

(** [[f(i) for i in idx]]. *)
Fixpoint comprehension {A B : Type} (f : A -> result B) (idx : list A)
  : result (list B) :=
  match idx with
  | [] => Ok []
  | i :: idx' => v <- f i ;; vs <- comprehension f idx' ;; Ok (v :: vs)
  end.

(** ** Double arithmetic without rounding *)

Inductive float : Type :=
| Finite (q : Q)
| NonFinite.

Definition lift2 (op : Q -> Q -> Q) (u v : float) : float :=
  match u, v with
  | Finite p, Finite q => Finite (op p q)
  | _, _ => NonFinite
  end.

Definition fadd : float -> float -> float := lift2 Qplus.
Definition fsub : float -> float -> float := lift2 Qminus.
Definition fmul : float -> float -> float := lift2 Qmult.

Definition fneg (u : float) : float :=
  match u with
  | Finite p => Finite (- p)
  | NonFinite => NonFinite
  end.

(** [u ** n] for a literal exponent [n]. *)
Definition fpow (u : float) (n : Z) : float :=
  match u with
  | Finite p => Finite (p ^ n)
  | NonFinite => NonFinite
  end.

(** [u / v] where an operand is a numpy scalar: a zero divisor gives
    [inf] or [nan] and a warning, never an exception. *)
Definition np_truediv (u v : float) : float :=
  match u, v with
  | Finite p, Finite q => if Qeq_bool q 0 then NonFinite else Finite (p / q)
  | _, _ => NonFinite
  end.

(** [u / v] on Python floats: a zero divisor raises. *)
Definition truediv (u v : float) : result float :=
  match v with
  | Finite q => if Qeq_bool q 0 then Raise ZeroDivisionError
                else Ok (np_truediv u v)
  | NonFinite => Ok NonFinite
  end.

(** Equality of two doubles as numbers; [NonFinite] equals nothing. *)
Definition float_eq (u v : float) : Prop :=
  match u, v with
  | Finite p, Finite q => p == q
  | _, _ => False
  end.

Definition is_finite (u : float) : Prop :=
  match u with
  | Finite _ => True
  | NonFinite => False
  end.

Definition Qlt_bool (p q : Q) : bool := negb (Qle_bool q p).

(** ** [bisect.bisect_left]

    The standard library's binary search: the loop
    [while lo < hi: mid = (lo + hi) // 2; if a[mid] < x: lo = mid + 1
    else: hi = mid], here with the iteration count as fuel ([hi - lo]
    iterations always suffice, see [bisect_loop_spec]). *)
Fixpoint bisect_loop (fuel : nat) (a : list Q) (x : Q) (lo hi : nat) : nat :=
  match fuel with
  | O => lo
  | S fuel' =>
      if (lo <? hi)%nat then
        let mid := ((lo + hi) / 2)%nat in
        if Qlt_bool (nth mid a x) x
        then bisect_loop fuel' a x (mid + 1) hi
        else bisect_loop fuel' a x lo mid
      else lo
  end.

Definition bisect_left (a : list Q) (x : Q) : nat :=
  bisect_loop (length a) a x 0 (length a).

(** ** The program *)

(** [class Spline]: the coefficients of one segment and its knot. *)
Record Spline : Type := mkSpline {
  a : float;
  b : float;
  c : float;
  d : float;
  x : float;
}.

Definition set_b (v : float) (s : Spline) : Spline :=
  {| a := a s; b := v; c := c s; d := d s; x := x s |}.
Definition set_c (v : float) (s : Spline) : Spline :=
  {| a := a s; b := b s; c := v; d := d s; x := x s |}.
Definition set_d (v : float) (s : Spline) : Spline :=
  {| a := a s; b := b s; c := c s; d := v; x := x s |}.

Definition f0 : float := Finite 0.
Definition f1 : float := Finite 1.
Definition f2 : float := Finite 2.
Definition f6 : float := Finite 6.

(** [np.zeros(n)]. *)
Definition np_zeros (n : Z) : result (list float) :=
  if (n <? 0)%Z then Raise ValueError else Ok (replicate (Z.to_nat n) f0).

Section Interpolator.

(** [self.function_arguments], [self.results] and [self.lines]. *)
Variable function_arguments : list Q.
Variable results : list Q.
Variable lines : Z.

Definition result_at (i : Z) : result float :=
  r <- getitem results i ;; Ok (Finite r).

(** Lines 54-66 of [build]: the records, then the boundary condition. *)
Definition initial_splines : result (list Spline) :=
  splines <- comprehension
    (fun i =>
       r <- getitem results i ;;
       arg <- getitem function_arguments i ;;
       Ok {| a := Finite r; b := f0; c := f0; d := f0; x := Finite arg |})
    (range 0 lines) ;;
  splines <- setattr splines 0 (set_c f0) ;;
  setattr splines (lines - 1) (set_c f0).

(** One round of the forward sweep (lines 95-104). *)
Definition forward_step (splines : list Spline) (i : Z)
    (st : list float * list float) : result (list float * list float) :=
  let '(alpha, beta) := st in
  s_i <- getitem splines i ;;
  s_prev <- getitem splines (i - 1) ;;
  let current_delta := fsub (x s_i) (x s_prev) in
  s_next <- getitem splines (i + 1) ;;
  let next_delta := fsub (x s_next) (x s_i) in
  r_next <- result_at (i + 1) ;;
  r_i <- result_at i ;;
  up <- truediv (fsub r_next r_i) next_delta ;;
  r_prev <- result_at (i - 1) ;;
  down <- truediv (fsub r_i r_prev) current_delta ;;
  let F := fmul f6 (fsub up down) in
  alpha_prev <- getitem alpha (i - 1) ;;
  let divider :=
    fmul current_delta (fadd alpha_prev (fmul f2 (fadd f1 next_delta))) in
  alpha <- setitem alpha i (np_truediv (fneg next_delta) divider) ;;
  beta_prev <- getitem beta (i - 1) ;;
  beta <- setitem beta i
    (np_truediv (fsub F (fmul current_delta beta_prev)) divider) ;;
  Ok (alpha, beta).

(** One round of the backward sweep (line 108). *)
Definition backward_step (alpha beta : list float) (i : Z)
    (splines : list Spline) : result (list Spline) :=
  alpha_i <- getitem alpha i ;;
  s_next <- getitem splines (i + 1) ;;
  beta_i <- getitem beta i ;;
  setattr splines i (set_c (fadd (fmul alpha_i (c s_next)) beta_i)).

Definition solve_equations_system (splines : list Spline)
  : result (list Spline) :=
  alpha <- np_zeros (lines - 1) ;;
  beta <- np_zeros (lines - 1) ;;
  st <- for_each (range 1 (lines - 1)) (forward_step splines)
          (alpha, beta) ;;
  for_each (range_down (lines - 2) 0) (backward_step st.1 st.2) splines.

(** One round of the last loop of [build] (lines 74-79).  The two
    quotients by [delta] are taken as Python divisions: line 78 is one,
    and line 75 is one whenever it can meet [delta = 0] (with three or
    more samples a zero [delta] has already raised in the forward
    sweep). *)
Definition sweep_step (i : Z) (splines : list Spline)
  : result (list Spline) :=
  s_i <- getitem splines i ;;
  s_prev <- getitem splines (i - 1) ;;
  let delta := fsub (x s_i) (x s_prev) in
  dv <- truediv (fsub (c s_i) (c s_prev)) delta ;;
  splines <- setattr splines i (set_d dv) ;;
  s_i <- getitem splines i ;;
  s_prev <- getitem splines (i - 1) ;;
  r_i <- result_at i ;;
  r_prev <- result_at (i - 1) ;;
  slope <- truediv (fsub r_i r_prev) delta ;;
  setattr splines i
    (set_b (fadd (np_truediv
                    (fmul delta (fadd (fmul f2 (c s_i)) (c s_prev))) f6)
                 slope)).

Definition build : result (list Spline) :=
  splines <- initial_splines ;;
  splines <- solve_equations_system splines ;;
  for_each (range_down (lines - 1) 0) sweep_step splines.

(** The cubic of one record at offset [delta] (lines 122-127). *)
Definition cubic (spline : Spline) (delta : float) : float :=
  fadd (fadd (fadd (a spline) (fmul (b spline) delta))
             (np_truediv (fmul (c spline) (fpow delta 2)) f2))
       (np_truediv (fmul (d spline) (fpow delta 3)) f6).

Definition interpolate (splines : list Spline) (value : Q) : result float :=
  let index := bisect_left function_arguments value in
  spline <- getitem splines (Z.of_nat index) ;;
  let delta := fsub (Finite value) (x spline) in
  Ok (cubic spline delta).

End Interpolator.

(** [class CubicSplineInterpolator]: the attributes of an instance. *)
Record CubicSplineInterpolator : Type := mkInterpolator {
  function_arguments : list Q;
  results : list Q;
  spline_arguments : list Q;
  lines : Z;
  splines : list Spline;
  interpolated_data : list float;
}.

Definition __init__ (function_arguments results spline_arguments : list Q)
  : result CubicSplineInterpolator :=
  let lines := Z.of_nat (length function_arguments) in
  splines <- build function_arguments results lines ;;
  interpolated_data <-
    comprehension (interpolate function_arguments splines) spline_arguments ;;
  Ok {| function_arguments := function_arguments;
        results := results;
        spline_arguments := spline_arguments;
        lines := lines;
        splines := splines;
        interpolated_data := interpolated_data |}.

(** [next(iter(l))]: the first element of [l]; on an empty list the
    [StopIteration] is raised inside a generator, where it becomes a
    [RuntimeError]. *)
Definition next_iter {A : Type} (l : list A) : result A :=
  match l with
  | v :: _ => Ok v
  | [] => Raise RuntimeError
  end.

(** [max(...)] of a sequence of doubles. *)
Definition fmax (u v : float) : float :=
  match u, v with
  | Finite p, Finite q => if Qlt_bool p q then Finite q else Finite p
  | _, _ => NonFinite
  end.

Definition py_max (l : list float) : result float :=
  match l with
  | v :: vs => Ok (fold_left fmax vs v)
  | [] => Raise ValueError
  end.

Definition get_interpolation_error (self : CubicSplineInterpolator)
    (function : Q -> float) : result float :=
  diffs <- comprehension
    (fun arg =>
       v <- next_iter (interpolated_data self) ;;
       Ok (fsub (function arg) v))
    (spline_arguments self) ;;
  py_max diffs.

(** ** The report

    [print] writes one line; the lines written are collected in a list,
    and a function that can stop half-way returns the lines written so
    far with the exception that stopped it.  [s * n], [sep.join(l)] and
    [len(s)] are [string_mul], [String.concat] and [String.length]. *)

Fixpoint string_mul (s : string) (n : nat) : string :=
  match n with
  | O => EmptyString
  | S n' => s +:+ string_mul s n'
  end.

(** [f'{n:2}']: an integer, right-aligned in [width] characters or more. *)
Definition format_d (width n : nat) : string :=
  string_mul " " (width - String.length (pretty n)) +:+ pretty n.

(** The line feed of ['\n']. *)
Definition nl : string := String (Ascii.ascii_of_nat 10) EmptyString.

(** What stops a report: the [StopIteration] of [next(arguments)], or an
    exception of the error metric. *)
Inductive raised : Type :=
| StopIteration
| Raised (e : exn).

Section Report.

(** [format_f width precision v] is [f'{v:width.precisionf}'], Python's
    fixed-point formatting of a double, which is not modelled. *)
Variable format_f : nat -> nat -> float -> string.

Definition print_args_and_results (args results : list float)
  : list string :=
  let args_slice := if (20 <? length args)%nat then take 20 args else args in
  let results_slice :=
    if (20 <? length results)%nat then take 20 results else results in
  let values := String.concat " | " (map (format_f 6 3) args_slice) in
  let solutions := String.concat " | " (map (format_f 6 3) results_slice) in
  let vertical_line :=
    string_mul "-" (String.length values + String.length " x | ") in
  [" x | " +:+ values; vertical_line; " y | " +:+ solutions].

Definition table_header : string :=
  "Step|    x    |    a    |    b    |    c    |    d    ".

(** One line of the table (lines 173-176), [next(arguments)] being
    [arg]. *)
Definition coefficient_row (step_number : nat) (arg : Q) (spline : Spline)
  : string :=
  " " +:+ format_d 2 step_number +:+ " | " +:+ format_f 7 3 (Finite arg)
  +:+ " | " +:+ format_f 7 3 (a spline)
  +:+ " | " +:+ format_f 7 3 (b spline) +:+ " | " +:+ format_f 7 3 (c spline)
  +:+ " | " +:+ format_f 7 3 (d spline).

(** The loop of [print_coefficients]: [arguments] is what the iterator
    over the queries has left. *)
Fixpoint print_rows (step_number : nat) (splines_slice : list Spline)
    (arguments : list Q) : list string * option raised :=
  match splines_slice with
  | [] => ([], None)
  | spline :: slice' =>
      match arguments with
      | [] => ([], Some StopIteration)
      | arg :: arguments' =>
          let rest := print_rows (S step_number) slice' arguments' in
          (coefficient_row step_number arg spline :: rest.1, rest.2)
      end
  end.

Definition print_coefficients (self : CubicSplineInterpolator)
  : list string * option raised :=
  let splines_slice :=
    if (10 <? length (splines self))%nat then take 10 (splines self)
    else take (length (splines self) - 1) (splines self) in
  let rows := print_rows 1 splines_slice (spline_arguments self) in
  (table_header :: string_mul "-" (String.length table_header) :: rows.1,
   rows.2).

Definition print_calculations (self : CubicSplineInterpolator)
    (function : Q -> float) : list string * option raised :=
  let head_lines :=
    ["Function arguments and results:" +:+ nl]
    ++ print_args_and_results (map Finite (function_arguments self))
                              (map Finite (results self))
    ++ [nl +:+ "Spline arguments and interpolated values:" +:+ nl]
    ++ print_args_and_results (map Finite (spline_arguments self))
                              (interpolated_data self)
    ++ [nl +:+ "Coefficients on each step:" +:+ nl] in
  let table := print_coefficients self in
  match table.2 with
  | Some e => (head_lines ++ table.1, Some e)
  | None =>
      match get_interpolation_error self function with
      | Ok error =>
          (head_lines ++ table.1
           ++ [nl +:+ "Interpolation error: " +:+ format_f 0 5 error], None)
      | Raise e => (head_lines ++ table.1, Some (Raised e))
      end
  end.

End Report.

(** The number of records that the table of [print_coefficients] shows:
    the first ten of more than ten, all but the last otherwise. *)
Definition shown_records (n : nat) : nat :=
  if (10 <? n)%nat then 10%nat else (n - 1)%nat.

(** ** What the properties are stated with *)

(** Strictly ascending arguments. *)
Fixpoint ascending (l : list Q) : Prop :=
  match l with
  | p :: (q :: _) as t => (p < q)%Q /\ ascending t
  | _ => True
  end.

(** Ascending arguments, equal neighbours allowed. *)
Fixpoint nondecreasing (l : list Q) : Prop :=
  match l with
  | p :: (q :: _) as t => (p <= q)%Q /\ nondecreasing t
  | _ => True
  end.

(** No two neighbouring arguments are equal. *)
Fixpoint distinct_neighbours (l : list Q) : Prop :=
  match l with
  | p :: (q :: _) as t => ~ (p == q)%Q /\ distinct_neighbours t
  | _ => True
  end.

(** The inputs the specification calls valid. *)
Definition valid_input (args res : list Q) : Prop :=
  length args = length res /\ (2 <= length args)%nat /\ ascending args.

(** First and second derivative of [cubic] with respect to [delta]. *)
Definition cubic_d1 (spline : Spline) (delta : float) : float :=
  fadd (fadd (b spline) (fmul (c spline) delta))
       (np_truediv (fmul (d spline) (fpow delta 2)) f2).

Definition cubic_d2 (spline : Spline) (delta : float) : float :=
  fadd (c spline) (fmul (d spline) delta).

(** What a computation may end in: a value satisfying [P], or an
    exception satisfying [E]. *)
Definition outcome {A : Type} (P : A -> Prop) (E : exn -> Prop)
    (r : result A) : Prop :=
  match r with
  | Ok v => P v
  | Raise e => E e
  end.

(** [r] is the lower bound of [x] in [a]: the elements before [r] are
    below [x], the elements from [r] on are not. *)
Definition lower_bound (a : list Q) (x : Q) (r : nat) : Prop :=
  (r <= length a)%nat /\
  (forall i v, (i < r)%nat -> a !! i = Some v -> (v < x)%Q) /\
  (forall i v, (r <= i)%nat -> a !! i = Some v -> (x <= v)%Q).

Section Records.

Variable args res : list Q.

(** Every record still carries its sample: [a] and [x] are never
    written after the comprehension. *)
Definition knots_ok (sp : list Spline) : Prop :=
  length sp = length args /\
  forall k s, sp !! k = Some s ->
    exists r p, res !! k = Some r /\ args !! k = Some p /\
                a s = Finite r /\ x s = Finite p.

(** Record 0 keeps its initial [b], [c] and [d]. *)
Definition first_fixed (sp : list Spline) : Prop :=
  forall s, sp !! 0%nat = Some s -> b s = f0 /\ c s = f0 /\ d s = f0.

(** The last record keeps its initial [c]. *)
Definition last_c (sp : list Spline) : Prop :=
  forall s, sp !! (length args - 1)%nat = Some s -> c s = f0.

(** The invariant of the loops of [build]. *)
Definition inv (sp : list Spline) : Prop :=
  knots_ok sp /\ first_fixed sp /\ last_c sp.

(** The records as the comprehension leaves them. *)
Definition fresh (sp : list Spline) : Prop :=
  length sp = length args /\
  forall k s, sp !! k = Some s ->
    exists r p, res !! k = Some r /\ args !! k = Some p /\
                s = mkSpline (Finite r) f0 f0 f0 (Finite p).

(** Record [k] as the last loop of [build] leaves it: [d] and [b] are
the quotients of lines 75-79, on the [c] of the records [k] and [k - 1]. *)
Definition derived (sp : list Spline) (k : nat) : Prop :=
  exists s t p q r r',
    sp !! k = Some s /\ sp !! (k - 1)%nat = Some t /\
    args !! (k - 1)%nat = Some p /\ args !! k = Some q /\
    res !! (k - 1)%nat = Some r' /\ res !! k = Some r /\
    d s = np_truediv (fsub (c s) (c t)) (Finite (q - p)) /\
    b s = fadd (np_truediv
                  (fmul (Finite (q - p)) (fadd (fmul f2 (c s)) (c t))) f6)
               (np_truediv (Finite (r - r')) (Finite (q - p))).

End Records.

(** The natural boundary condition: [c] is zero in the first and in the
    last record. *)
Definition natural (sp : list Spline) : Prop :=
  exists s t, head sp = Some s /\ last sp = Some t /\ c s = f0 /\ c t = f0.

(** The error metric as the specification words it: the maximum over the
    queries of the true function's value minus the value interpolated
    at that same query. *)
Definition pointwise_error (self : CubicSplineInterpolator)
    (function : Q -> float) : result float :=
  diffs <- comprehension
    (fun arg =>
       v <- interpolate (function_arguments self) (splines self) arg ;;
       Ok (fsub (function arg) v))
    (spline_arguments self) ;;
  py_max diffs.

(** The values the sweeps assign, named: [pivot] is the [divider] of
    line 101, [new_alpha] and [new_beta] the right-hand sides of lines
    103 and 104, [new_d] and [new_b] those of lines 75 and 76-79 ([h] is
    the distance to the previous knot, [h'] to the next one, [dy] the
    difference of the two results). *)
Definition pivot (h h' : Q) (alpha_prev : float) : float :=
  fmul (Finite h) (fadd alpha_prev (fmul f2 (fadd f1 (Finite h')))).

Definition new_alpha (h h' : Q) (alpha_prev : float) : float :=
  np_truediv (fneg (Finite h')) (pivot h h' alpha_prev).

Definition new_beta (h h' F : Q) (alpha_prev beta_prev : float) : float :=
  np_truediv (fsub (Finite F) (fmul (Finite h) beta_prev))
             (pivot h h' alpha_prev).

Definition new_d (s t : Spline) (h : Q) : float :=
  np_truediv (fsub (c s) (c t)) (Finite h).

Definition new_b (s t : Spline) (h dy : Q) : float :=
  fadd (np_truediv (fmul (Finite h) (fadd (fmul f2 (c s)) (c t))) f6)
       (np_truediv (Finite dy) (Finite h)).

Section System.

Variable args res : list Q.

(** [function_arguments[k]] and [results[k]] for an index in range. *)
Definition knot (k : nat) : Q := nth k args 0%Q.
Definition sample (k : nat) : Q := nth k res 0%Q.

(** The length of the segment that ends at knot [k]. *)
Definition seg (k : nat) : Q := knot k - knot (k - 1).

(** [F] of lines 97-100 at knot [k]. *)
Definition rhs (k : nat) : Q :=
  6 * ((sample (k + 1) - sample k) / seg (k + 1)
       - (sample k - sample (k - 1)) / seg k).

(** [alpha[k]] and [beta[k]] are what round [k] of the forward sweep
    assigns. *)
Definition forward_ok (alpha beta : list float) (k : nat) : Prop :=
  exists ap bp,
    alpha !! (k - 1)%nat = Some ap /\ beta !! (k - 1)%nat = Some bp /\
    alpha !! k = Some (new_alpha (seg k) (seg (k + 1)) ap) /\
    beta !! k = Some (new_beta (seg k) (seg (k + 1)) (rhs k) ap bp).

(** [c] of record [k] is what round [k] of the backward sweep assigns. *)
Definition backward_ok (alpha beta : list float) (sp : list Spline)
    (k : nat) : Prop :=
  exists s s' ak bk,
    sp !! k = Some s /\ sp !! S k = Some s' /\
    alpha !! k = Some ak /\ beta !! k = Some bk /\
    c s = fadd (fmul ak (c s')) bk.

(** Every segment but the last has length 1. *)
Definition unit_spaced : Prop :=
  forall k, (1 <= k)%nat -> (k + 2 <= length args)%nat -> (seg k == 1)%Q.

End System.

(** ** Order of the knots *)

Lemma Qlt_bool_iff (p q : Q) : Qlt_bool p q = true <-> (p < q)%Q.
Proof.
  unfold Qlt_bool. rewrite negb_true_iff, <- not_true_iff_false, Qle_bool_iff.
  split; [apply Qnot_le_lt | apply Qlt_not_le].
Qed.

Lemma Qlt_bool_false (p q : Q) : Qlt_bool p q = false <-> (q <= p)%Q.
Proof.
  unfold Qlt_bool. rewrite negb_false_iff. apply Qle_bool_iff.
Qed.

Lemma ascending_nondecreasing (l : list Q) : ascending l -> nondecreasing l.
Proof.
  induction l as [|p [|q t] IH]; simpl; auto.
  intros [Hpq Ht]. split; [apply Qlt_le_weak, Hpq | apply IH, Ht].
Qed.

Lemma ascending_distinct (l : list Q) : ascending l -> distinct_neighbours l.
Proof.
  induction l as [|p [|q t] IH]; simpl; auto.
  intros [Hpq Ht]. split; [lra | apply IH, Ht].
Qed.

Lemma nondecreasing_tail (p : Q) (l : list Q) :
  nondecreasing (p :: l) -> nondecreasing l.
Proof. destruct l; simpl; tauto. Qed.

Lemma nondecreasing_head (p : Q) (l : list Q) (j : nat) (q : Q) :
  nondecreasing (p :: l) -> (p :: l) !! j = Some q -> (p <= q)%Q.
Proof.
  revert p j. induction l as [|r t IH]; intros p j Hs Hj.
  - destruct j as [|j]; simpl in Hj; [|destruct j; discriminate].
    injection Hj as <-. apply Qle_refl.
  - destruct j as [|j]; simpl in Hj.
    + injection Hj as <-. apply Qle_refl.
    + destruct Hs as [Hpr Hs]. apply Qle_trans with r; [exact Hpr|].
      apply (IH r j Hs Hj).
Qed.

Lemma nondecreasing_lookup (l : list Q) (i j : nat) (p q : Q) :
  nondecreasing l -> (i <= j)%nat ->
  l !! i = Some p -> l !! j = Some q -> (p <= q)%Q.
Proof.
  revert i j. induction l as [|r t IH]; intros i j Hs Hij Hi Hj.
  - discriminate.
  - destruct i as [|i].
    + simpl in Hi. injection Hi as <-. eapply nondecreasing_head; eauto.
    + destruct j as [|j]; [lia|]. simpl in Hi, Hj.
      apply (IH i j); auto. { eapply nondecreasing_tail; eauto. } lia.
Qed.

Lemma ascending_tail (p : Q) (l : list Q) : ascending (p :: l) -> ascending l.
Proof. destruct l; simpl; tauto. Qed.

Lemma ascending_lookup (l : list Q) (i j : nat) (p q : Q) :
  ascending l -> (i < j)%nat ->
  l !! i = Some p -> l !! j = Some q -> (p < q)%Q.
Proof.
  revert i j. induction l as [|r t IH]; intros i j Hs Hij Hi Hj.
  - discriminate.
  - destruct i as [|i].
    + simpl in Hi. injection Hi as <-.
      destruct j as [|j]; [lia|]. simpl in Hj.
      destruct t as [|r' t']; [discriminate|]. destruct Hs as [Hrr Hs].
      apply Qlt_le_trans with r'; [exact Hrr|].
      apply (nondecreasing_head r' t' j q); [|exact Hj].
      apply ascending_nondecreasing, Hs.
    + destruct j as [|j]; [lia|]. simpl in Hi, Hj.
      apply (IH i j); auto. { eapply ascending_tail; eauto. } lia.
Qed.

Lemma distinct_neighbours_lookup (l : list Q) (i : nat) (p q : Q) :
  distinct_neighbours l ->
  l !! i = Some p -> l !! S i = Some q -> ~ (p == q)%Q.
Proof.
  revert i. induction l as [|r t IH]; intros i Hs Hi Hj; [discriminate|].
  destruct t as [|r' t']; [discriminate|]. destruct Hs as [Hrr Hs].
  destruct i as [|i]; simpl in Hi, Hj.
  - injection Hi as <-. injection Hj as <-. exact Hrr.
  - apply (IH i); auto.
Qed.

(** ** The binary search *)

Lemma bisect_loop_spec (a : list Q) (x : Q) :
  nondecreasing a ->
  forall fuel lo hi,
    (lo <= hi <= length a)%nat -> (hi - lo <= fuel)%nat ->
    (forall i v, (i < lo)%nat -> a !! i = Some v -> (v < x)%Q) ->
    (forall i v, (hi <= i)%nat -> a !! i = Some v -> (x <= v)%Q) ->
    lower_bound a x (bisect_loop fuel a x lo hi).
Proof.
  intros Hs. induction fuel as [|fuel IH]; intros lo hi Hb Hf Hlo Hhi.
  - simpl. assert (lo = hi) by lia. subst hi.
    split; [lia|]. split; assumption.
  - cbn [bisect_loop]. destruct (Nat.ltb_spec lo hi) as [Hlt|Hge].
    + set (mid := ((lo + hi) / 2)%nat).
      assert (Hmid : (lo <= mid < hi)%nat).
      { unfold mid. split.
        - apply Nat.div_le_lower_bound; lia.
        - apply Nat.Div0.div_lt_upper_bound; lia. }
      clearbody mid.
      destruct (lookup_lt_is_Some_2 a mid) as [m Hm]; [lia|].
      rewrite (nth_lookup_Some _ _ _ _ Hm).
      destruct (Qlt_bool m x) eqn:Hc.
      * apply Qlt_bool_iff in Hc. apply IH; [lia|lia| |exact Hhi].
        intros i v Hi Hv. apply Qle_lt_trans with m; [|exact Hc].
        apply (nondecreasing_lookup a i mid); auto. lia.
      * apply Qlt_bool_false in Hc. apply IH; [lia|lia|exact Hlo|].
        intros i v Hi Hv. apply Qle_trans with m; [exact Hc|].
        apply (nondecreasing_lookup a mid i); auto.
    + assert (lo = hi) by lia. subst hi.
      split; [lia|]. split; assumption.
Qed.

Lemma bisect_left_spec (a : list Q) (x : Q) :
  nondecreasing a -> lower_bound a x (bisect_left a x).
Proof.
  intros Hs. unfold bisect_left. apply bisect_loop_spec; auto; try lia.
  intros i v Hi Hv. apply lookup_lt_Some in Hv. lia.
Qed.

Lemma lower_bound_le (a : list Q) (x y : Q) (r s : nat) :
  lower_bound a x r -> lower_bound a y s -> (x <= y)%Q -> (r <= s)%nat.
Proof.
  intros (Hr & Hrlt & _) (Hs & _ & Hsge) Hxy.
  destruct (Nat.le_gt_cases r s) as [|Hlt]; [assumption|exfalso].
  destruct (lookup_lt_is_Some_2 a s) as [v Hv]; [lia|].
  pose proof (Hrlt s v Hlt Hv). pose proof (Hsge s v (Nat.le_refl s) Hv). lra.
Qed.

Lemma lower_bound_unique (a : list Q) (x : Q) (r s : nat) :
  lower_bound a x r -> lower_bound a x s -> r = s.
Proof.
  intros Hr Hs. apply Nat.le_antisymm;
    eapply lower_bound_le; eauto; apply Qle_refl.
Qed.

Lemma bisect_left_knot (a : list Q) (i : nat) (p : Q) :
  ascending a -> a !! i = Some p -> bisect_left a p = i.
Proof.
  intros Hs Hi.
  apply (lower_bound_unique a p); [apply bisect_left_spec, ascending_nondecreasing, Hs|].
  split; [apply lookup_lt_Some in Hi; lia|]. split.
  - intros j v Hj Hv. apply (ascending_lookup a j i); auto.
  - intros j v Hj Hv.
    apply (nondecreasing_lookup a i j); auto using ascending_nondecreasing.
Qed.

Lemma bisect_left_below (a : list Q) (q p : Q) :
  nondecreasing a -> a !! 0%nat = Some p -> (q < p)%Q -> bisect_left a q = 0%nat.
Proof.
  intros Hs H0 Hq.
  destruct (bisect_left_spec a q Hs) as (_ & Hlt & _).
  destruct (bisect_left a q) as [|r] eqn:Hr; [reflexivity|exfalso].
  pose proof (Hlt 0%nat p (Nat.lt_0_succ r) H0). lra.
Qed.

Lemma bisect_left_above (a : list Q) (q p : Q) :
  nondecreasing a -> last a = Some p -> (p < q)%Q ->
  bisect_left a q = length a.
Proof.
  intros Hs Hl Hq.
  destruct (bisect_left_spec a q Hs) as (Hle & _ & Hge).
  destruct (Nat.eq_dec (bisect_left a q) (length a)) as [|Hne]; [assumption|].
  exfalso. rewrite last_lookup in Hl.
  destruct (lookup_lt_is_Some_2 a (bisect_left a q)) as [v Hv]; [lia|].
  pose proof (Hge _ v (Nat.le_refl _) Hv).
  assert ((v <= p)%Q).
  { apply (nondecreasing_lookup a (bisect_left a q) (pred (length a))); auto.
    lia. }
  lra.
Qed.

(** ** Indexing, ranges and loops *)

Lemma norm_index_of_nat (n k : nat) :
  (k < n)%nat -> norm_index n (Z.of_nat k) = Some k.
Proof.
  intros Hk. unfold norm_index.
  destruct (Z.ltb_spec (Z.of_nat k) 0); [lia|].
  destruct (Z.ltb_spec (Z.of_nat k) 0); [lia|].
  destruct (Z.leb_spec (Z.of_nat n) (Z.of_nat k)); [lia|].
  simpl. now rewrite Nat2Z.id.
Qed.

Lemma norm_index_ge (n : nat) (i : Z) :
  (Z.of_nat n <= i)%Z -> norm_index n i = None.
Proof.
  intros Hi. unfold norm_index.
  destruct (Z.ltb_spec i 0); [lia|].
  destruct (Z.ltb_spec i 0); [lia|].
  destruct (Z.leb_spec (Z.of_nat n) i); [reflexivity|lia].
Qed.

Lemma getitem_lookup {A : Type} (l : list A) (k : nat) (v : A) :
  l !! k = Some v -> getitem l (Z.of_nat k) = Ok v.
Proof.
  intros H. unfold getitem.
  rewrite norm_index_of_nat by (eapply lookup_lt_Some; eauto).
  now rewrite H.
Qed.

Lemma getitem_ge {A : Type} (l : list A) (i : Z) :
  (Z.of_nat (length l) <= i)%Z -> getitem l i = Raise IndexError.
Proof. intros H. unfold getitem. now rewrite norm_index_ge. Qed.

Lemma setattr_lookup {A : Type} (l : list A) (k : nat) (v : A) (upd : A -> A) :
  l !! k = Some v -> setattr l (Z.of_nat k) upd = Ok (<[k := upd v]> l).
Proof.
  intros H. unfold setattr.
  rewrite norm_index_of_nat by (eapply lookup_lt_Some; eauto).
  now rewrite H.
Qed.

Lemma in_range (a b i : Z) : In i (range a b) <-> (a <= i < b)%Z.
Proof.
  unfold range. rewrite in_map_iff. split.
  - intros (k & <- & Hk). apply in_seq in Hk. lia.
  - intros Hi. exists (Z.to_nat (i - a)). split; [lia|].
    apply in_seq. lia.
Qed.

Lemma in_range_down (a b i : Z) : In i (range_down a b) <-> (b < i <= a)%Z.
Proof.
  unfold range_down. rewrite in_map_iff. split.
  - intros (k & <- & Hk). apply in_seq in Hk. lia.
  - intros Hi. exists (Z.to_nat (a - i)). split; [lia|].
    apply in_seq. lia.
Qed.

Lemma range_lookup (n k : nat) :
  (k < n)%nat -> range 0 (Z.of_nat n) !! k = Some (Z.of_nat k).
Proof.
  intros Hk. unfold range. rewrite list_lookup_fmap.
  replace (Z.to_nat (Z.of_nat n - 0)) with n by lia.
  rewrite lookup_seq_lt by exact Hk. reflexivity.
Qed.

Lemma length_range (a b : Z) : length (range a b) = Z.to_nat (b - a).
Proof. unfold range. now rewrite length_map, length_seq. Qed.

Lemma outcome_impl {A : Type} (P Q : A -> Prop) (E F : exn -> Prop)
    (r : result A) :
  outcome P E r -> (forall v, P v -> Q v) -> (forall e, E e -> F e) ->
  outcome Q F r.
Proof. destruct r; simpl; auto. Qed.

Lemma outcome_bind {A B : Type} (P : A -> Prop) (Q : B -> Prop)
    (E : exn -> Prop) (m : result A) (k : A -> result B) :
  outcome P E m -> (forall v, P v -> outcome Q E (k v)) ->
  outcome Q E (v <- m ;; k v).
Proof. destruct m; simpl; auto. Qed.

Lemma outcome_Ok {A : Type} (P : A -> Prop) (E : exn -> Prop) (r : result A) :
  outcome P E r -> (forall e, ~ E e) -> exists v, r = Ok v /\ P v.
Proof.
  destruct r as [v|e]; simpl; intros H HE; [eauto|destruct (HE e H)].
Qed.

Lemma for_each_outcome {S : Type} (P : S -> Prop) (E : exn -> Prop)
    (idx : list Z) (body : Z -> S -> result S) :
  (forall i st, In i idx -> P st -> outcome P E (body i st)) ->
  forall st, P st -> outcome P E (for_each idx body st).
Proof.
  induction idx as [|i idx IH]; intros Hbody st Hst; simpl; [exact Hst|].
  apply outcome_bind with P.
  - apply Hbody; [now left|exact Hst].
  - intros st' Hst'. apply IH; [|exact Hst'].
    intros j st'' Hj. apply Hbody. now right.
Qed.

(** A loop that completes has completed every round. *)
Lemma for_each_rounds {S : Type} (P : S -> Prop) (R : Z -> Prop)
    (idx : list Z) (body : Z -> S -> result S) :
  (forall i st st', In i idx -> P st -> body i st = Ok st' -> P st' /\ R i) ->
  forall st st', P st -> for_each idx body st = Ok st' ->
  P st' /\ forall i, In i idx -> R i.
Proof.
  induction idx as [|i idx IH]; intros Hbody st st' Hst Hrun; simpl in Hrun.
  - injection Hrun as <-. split; [exact Hst|]. intros i [].
  - destruct (body i st) as [st1|e] eqn:Hb; simpl in Hrun; [|discriminate].
    destruct (Hbody i st st1 (or_introl eq_refl) Hst Hb) as [Hst1 Hi].
    destruct (IH (fun j s s' Hj => Hbody j s s' (or_intror Hj)) st1 st' Hst1 Hrun)
      as [Hst' Hrest].
    split; [exact Hst'|]. intros j [<-|Hj]; auto.
Qed.

Lemma comprehension_Forall2 {A B : Type} (f : A -> result B) (idx : list A)
    (l : list B) :
  comprehension f idx = Ok l <-> Forall2 (fun i v => f i = Ok v) idx l.
Proof.
  revert l. induction idx as [|i idx IH]; intros l; simpl.
  - split.
    + intros H. injection H as <-. constructor.
    + intros H. inversion H. reflexivity.
  - split.
    + destruct (f i) as [v|e] eqn:Hf; simpl; [|discriminate].
      destruct (comprehension f idx) as [vs|e] eqn:Hc; simpl; [|discriminate].
      intros H. injection H as <-. constructor; [exact Hf|]. now apply IH.
    + intros H. inversion H as [|i' v idx' vs Hf Hrest]; subst.
      rewrite Hf. simpl. apply IH in Hrest. rewrite Hrest. reflexivity.
Qed.

Lemma comprehension_outcome {A B : Type} (P : A -> B -> Prop)
    (E : exn -> Prop) (f : A -> result B) (idx : list A) :
  (forall i, In i idx -> outcome (P i) E (f i)) ->
  outcome (fun l => Forall2 P idx l) E (comprehension f idx).
Proof.
  induction idx as [|i idx IH]; intros Hf; simpl; [constructor|].
  apply outcome_bind with (P i); [apply Hf; now left|].
  intros v Hv. apply outcome_bind with (fun l => Forall2 P idx l).
  - apply IH. intros j Hj. apply Hf. now right.
  - intros vs Hvs. simpl. now constructor.
Qed.

Lemma getitem_outcome {A : Type} (E : exn -> Prop) (l : list A) (k : nat) :
  (k < length l)%nat ->
  outcome (fun v => l !! k = Some v) E (getitem l (Z.of_nat k)).
Proof.
  intros Hk. destruct (lookup_lt_is_Some_2 l k Hk) as [v Hv].
  rewrite (getitem_lookup l k v Hv). exact Hv.
Qed.

Lemma getitem_raises {A : Type} (l : list A) (i : Z) :
  outcome (fun _ => True) (eq IndexError) (getitem l i).
Proof.
  unfold getitem. destruct (norm_index (length l) i); simpl; auto.
  destruct (l !! n); simpl; auto.
Qed.

Lemma setattr_outcome {A : Type} (E : exn -> Prop) (l : list A) (k : nat)
    (upd : A -> A) :
  (k < length l)%nat ->
  outcome (fun l' => exists v, l !! k = Some v /\ l' = <[k := upd v]> l) E
          (setattr l (Z.of_nat k) upd).
Proof.
  intros Hk. destruct (lookup_lt_is_Some_2 l k Hk) as [v Hv].
  rewrite (setattr_lookup l k v upd Hv). simpl. eauto.
Qed.

Lemma setitem_outcome {A : Type} (E : exn -> Prop) (l : list A) (k : nat)
    (v : A) :
  (k < length l)%nat ->
  outcome (fun l' => length l' = length l) E (setitem l (Z.of_nat k) v).
Proof.
  intros Hk. unfold setitem.
  eapply outcome_impl; [apply (setattr_outcome E), Hk| |auto].
  intros l' (w & _ & ->). apply length_insert.
Qed.

Lemma truediv_outcome (E : exn -> Prop) (u : float) (p q : Q) :
  E ZeroDivisionError \/ ~ (p == q)%Q ->
  outcome (fun _ => True) E (truediv u (Finite (q - p))).
Proof.
  intros H. unfold truediv. destruct (Qeq_bool (q - p) 0) eqn:Hz; simpl; auto.
  destruct H as [H|H]; [exact H|]. apply Qeq_bool_eq in Hz.
  destruct H. lra.
Qed.

Lemma truediv_Ok (u v : float) (p q : Q) :
  truediv u (Finite (q - p)) = Ok v -> ~ (p == q)%Q.
Proof.
  unfold truediv. destruct (Qeq_bool (q - p) 0) eqn:Hz; [discriminate|].
  intros _ Hpq. apply Qeq_bool_neq in Hz. apply Hz. lra.
Qed.

(** ** What the loops of [build] keep *)

Section Invariant.

Variable args res : list Q.

Lemma inv_length (sp : list Spline) : inv args res sp -> length sp = length args.
Proof. intros [[H _] _]. exact H. Qed.

Lemma inv_res (sp : list Spline) (k : nat) :
  inv args res sp -> (k < length args)%nat -> exists r, res !! k = Some r.
Proof.
  intros [[Hl Hk] _] Hlt.
  destruct (lookup_lt_is_Some_2 sp k) as [s Hs]; [lia|].
  destruct (Hk k s Hs) as (r & p & Hr & _). eauto.
Qed.

Lemma inv_x (sp : list Spline) (k : nat) (s : Spline) :
  inv args res sp -> sp !! k = Some s -> exists p, args !! k = Some p /\ x s = Finite p.
Proof.
  intros [[Hl Hk] _] Hs. destruct (Hk k s Hs) as (r & p & _ & Hp & _ & Hx).
  eauto.
Qed.

(** Writing a field other than [a] and [x] of a record other than the
    first, and not the [c] of the last, keeps the invariant. *)
Lemma inv_insert (sp : list Spline) (k : nat) (s : Spline)
    (upd : Spline -> Spline) :
  inv args res sp -> sp !! k = Some s -> (1 <= k)%nat ->
  a (upd s) = a s -> x (upd s) = x s ->
  (k = (length args - 1)%nat -> c (upd s) = c s) ->
  inv args res (<[k := upd s]> sp).
Proof.
  intros ((Hl & Hk) & Hf & Hc) Hs Hk1 Ha Hx Hcc.
  assert (Hlt : (k < length sp)%nat) by (eapply lookup_lt_Some; eauto).
  split; [split|split].
  - now rewrite length_insert.
  - intros j t Hj. destruct (Nat.eq_dec k j) as [<-|Hne].
    + rewrite list_lookup_insert_eq in Hj by exact Hlt.
      injection Hj as <-. rewrite Ha, Hx. apply (Hk k s Hs).
    + rewrite list_lookup_insert_ne in Hj by exact Hne. apply (Hk j t Hj).
  - intros t Ht. rewrite list_lookup_insert_ne in Ht by lia. apply Hf, Ht.
  - intros t Ht. destruct (Nat.eq_dec k (length args - 1)) as [Heq|Hne].
    + rewrite <- Heq in Ht. rewrite list_lookup_insert_eq in Ht by exact Hlt.
      injection Ht as <-. rewrite (Hcc Heq). apply Hc. now rewrite <- Heq.
    + rewrite list_lookup_insert_ne in Ht by exact Hne. apply Hc, Ht.
Qed.

Lemma setattr_inv (E : exn -> Prop) (sp : list Spline) (k : nat)
    (upd : Spline -> Spline) :
  inv args res sp -> (1 <= k < length args)%nat ->
  (forall s, a (upd s) = a s /\ x (upd s) = x s) ->
  (k = (length args - 1)%nat -> forall s, c (upd s) = c s) ->
  outcome (inv args res) E (setattr sp (Z.of_nat k) upd).
Proof.
  intros Hinv Hk Hax Hc.
  eapply outcome_impl;
    [apply (setattr_outcome E sp k upd); rewrite (inv_length sp Hinv); lia
    | |auto].
  intros sp' (s & Hs & ->). apply inv_insert; auto; try apply Hax. lia.
Qed.

Lemma result_at_lookup (k : nat) (r : Q) :
  res !! k = Some r -> result_at res (Z.of_nat k) = Ok (Finite r).
Proof. intros H. unfold result_at. now rewrite (getitem_lookup res k r H). Qed.

Variable E : exn -> Prop.
Hypothesis Hdiv : E ZeroDivisionError \/ distinct_neighbours args.

Lemma delta_outcome (u : float) (k : nat) (p q : Q) :
  args !! k = Some p -> args !! S k = Some q ->
  outcome (fun _ => True) E (truediv u (Finite (q - p))).
Proof.
  intros Hp Hq. apply truediv_outcome.
  destruct Hdiv as [H|H]; [now left|right].
  eapply distinct_neighbours_lookup; eauto.
Qed.

(** The last loop of [build] writes [d] and [b] of the records 1 to
    N-1. *)
Lemma sweep_step_outcome (sp : list Spline) (k : nat) :
  inv args res sp -> (1 <= k < length args)%nat ->
  outcome (inv args res) E (sweep_step res (Z.of_nat k) sp).
Proof.
  intros Hinv Hk. unfold sweep_step.
  replace (Z.of_nat k - 1)%Z with (Z.of_nat (k - 1)) by lia.
  pose proof (inv_length sp Hinv) as Hlen.
  destruct (lookup_lt_is_Some_2 sp k) as [s_i Hsi]; [lia|].
  destruct (lookup_lt_is_Some_2 sp (k - 1)) as [s_prev Hsp]; [lia|].
  rewrite (getitem_lookup sp k s_i Hsi). cbn [bind].
  rewrite (getitem_lookup sp (k - 1) s_prev Hsp). cbn [bind].
  destruct (inv_x sp k s_i Hinv Hsi) as (q & Hq & ->).
  destruct (inv_x sp (k - 1) s_prev Hinv Hsp) as (p & Hp & ->).
  destruct (inv_res sp k Hinv) as [r_i Hri]; [lia|].
  destruct (inv_res sp (k - 1) Hinv) as [r_prev Hrp]; [lia|].
  replace k with (S (k - 1)) in Hq by lia.
  cbn [fsub lift2].
  apply outcome_bind with (fun _ => True);
    [apply (delta_outcome _ (k - 1)); assumption|].
  intros dv _.
  apply outcome_bind with (inv args res).
  { apply setattr_inv; auto. }
  intros sp' Hinv'. pose proof (inv_length sp' Hinv') as Hlen'.
  apply outcome_bind with (fun _ => True).
  { eapply outcome_impl; [apply (getitem_outcome E); lia|auto|auto]. }
  intros s_i' _.
  apply outcome_bind with (fun _ => True).
  { eapply outcome_impl; [apply (getitem_outcome E); lia|auto|auto]. }
  intros s_prev' _.
  rewrite (result_at_lookup k r_i Hri). cbn [bind].
  rewrite (result_at_lookup (k - 1) r_prev Hrp). cbn [bind].
  apply outcome_bind with (fun _ => True);
    [apply (delta_outcome _ (k - 1)); assumption|].
  intros slope _.
  apply setattr_inv; auto.
Qed.

(** The backward sweep writes [c] of the records N-2 down to 1. *)
Lemma backward_step_outcome (alpha beta : list float) (sp : list Spline)
    (k : nat) :
  inv args res sp -> length alpha = (length args - 1)%nat ->
  length beta = (length args - 1)%nat ->
  (1 <= k < length args - 1)%nat ->
  outcome (inv args res) E (backward_step alpha beta (Z.of_nat k) sp).
Proof.
  intros Hinv Ha Hb Hk. unfold backward_step.
  replace (Z.of_nat k + 1)%Z with (Z.of_nat (k + 1)) by lia.
  pose proof (inv_length sp Hinv) as Hlen.
  apply outcome_bind with (fun _ => True).
  { eapply outcome_impl; [apply (getitem_outcome E); lia|auto|auto]. }
  intros alpha_i _.
  apply outcome_bind with (fun _ => True).
  { eapply outcome_impl; [apply (getitem_outcome E); lia|auto|auto]. }
  intros s_next _.
  apply outcome_bind with (fun _ => True).
  { eapply outcome_impl; [apply (getitem_outcome E); lia|auto|auto]. }
  intros beta_i _.
  apply setattr_inv; auto; lia.
Qed.

(** The forward sweep writes [alpha] and [beta] only. *)
Lemma forward_step_outcome (sp : list Spline) (st : list float * list float)
    (k : nat) :
  inv args res sp -> length st.1 = (length args - 1)%nat ->
  length st.2 = (length args - 1)%nat ->
  (1 <= k < length args - 1)%nat ->
  outcome (fun st' => length st'.1 = (length args - 1)%nat /\
                      length st'.2 = (length args - 1)%nat) E
          (forward_step res sp (Z.of_nat k) st).
Proof.
  intros Hinv Ha Hb Hk. destruct st as [alpha beta]. simpl in Ha, Hb.
  unfold forward_step.
  replace (Z.of_nat k - 1)%Z with (Z.of_nat (k - 1)) by lia.
  replace (Z.of_nat k + 1)%Z with (Z.of_nat (k + 1)) by lia.
  pose proof (inv_length sp Hinv) as Hlen.
  destruct (lookup_lt_is_Some_2 sp k) as [s_i Hsi]; [lia|].
  destruct (lookup_lt_is_Some_2 sp (k - 1)) as [s_prev Hsp]; [lia|].
  destruct (lookup_lt_is_Some_2 sp (k + 1)) as [s_next Hsn]; [lia|].
  rewrite (getitem_lookup sp k s_i Hsi). cbn [bind].
  rewrite (getitem_lookup sp (k - 1) s_prev Hsp). cbn [bind].
  rewrite (getitem_lookup sp (k + 1) s_next Hsn). cbn [bind].
  destruct (inv_x sp k s_i Hinv Hsi) as (q & Hq & ->).
  destruct (inv_x sp (k - 1) s_prev Hinv Hsp) as (p & Hp & ->).
  destruct (inv_x sp (k + 1) s_next Hinv Hsn) as (q' & Hq' & ->).
  destruct (inv_res sp k Hinv) as [r_i Hri]; [lia|].
  destruct (inv_res sp (k - 1) Hinv) as [r_prev Hrp]; [lia|].
  destruct (inv_res sp (k + 1) Hinv) as [r_next Hrn]; [lia|].
  rewrite (result_at_lookup (k + 1) r_next Hrn). cbn [bind].
  rewrite (result_at_lookup k r_i Hri). cbn [bind].
  replace (k + 1)%nat with (S k) in Hq' by lia.
  cbn [fsub lift2].
  apply outcome_bind with (fun _ => True);
    [apply (delta_outcome _ k); assumption|].
  intros up _.
  rewrite (result_at_lookup (k - 1) r_prev Hrp). cbn [bind].
  pose proof Hq as Hq2. replace k with (S (k - 1)) in Hq2 by lia.
  apply outcome_bind with (fun _ => True);
    [apply (delta_outcome _ (k - 1)); assumption|].
  intros down _.
  apply outcome_bind with (fun _ => True).
  { eapply outcome_impl; [apply (getitem_outcome E); lia|auto|auto]. }
  intros alpha_prev _.
  apply outcome_bind with (fun l => length l = (length args - 1)%nat).
  { eapply outcome_impl; [apply (setitem_outcome E); lia| |auto].
    simpl. intros; congruence. }
  intros alpha' Ha'.
  apply outcome_bind with (fun _ => True).
  { eapply outcome_impl; [apply (getitem_outcome E); lia|auto|auto]. }
  intros beta_prev _.
  apply outcome_bind with (fun l => length l = (length args - 1)%nat).
  { eapply outcome_impl; [apply (setitem_outcome E); lia| |auto].
    simpl. intros; congruence. }
  intros beta' Hb'. simpl. auto.
Qed.

End Invariant.

(** ** [build] as a whole *)

Section Build.

Variable args res : list Q.

Let lines : Z := Z.of_nat (length args).

Lemma fresh_inv (sp : list Spline) : fresh args res sp -> inv args res sp.
Proof.
  intros [Hl Hk]. split; [split; [exact Hl|]|split].
  - intros k s Hs. destruct (Hk k s Hs) as (r & p & Hr & Hp & ->).
    exists r, p. auto.
  - intros s Hs. destruct (Hk _ s Hs) as (r & p & _ & _ & ->). auto.
  - intros s Hs. destruct (Hk _ s Hs) as (r & p & _ & _ & ->). auto.
Qed.

Lemma fresh_set_c (sp : list Spline) (k : nat) :
  fresh args res sp -> (k < length args)%nat ->
  setattr sp (Z.of_nat k) (set_c f0) = Ok sp.
Proof.
  intros [Hl Hk] Hlt.
  destruct (lookup_lt_is_Some_2 sp k) as [s Hs]; [lia|].
  rewrite (setattr_lookup sp k s _ Hs).
  destruct (Hk k s Hs) as (r & p & _ & _ & ->). cbn [set_c a b c d x].
  now rewrite list_insert_id.
Qed.

Lemma comprehension_fresh (E : exn -> Prop) :
  (length args <= length res)%nat ->
  outcome (fresh args res) E
    (comprehension
       (fun i =>
          r <- getitem res i ;;
          arg <- getitem args i ;;
          Ok {| a := Finite r; b := f0; c := f0; d := f0; x := Finite arg |})
       (range 0 lines)).
Proof.
  intros Hres.
  eapply outcome_impl;
    [apply (comprehension_outcome
              (fun i s => exists k r p, i = Z.of_nat k /\ res !! k = Some r /\
                 args !! k = Some p /\
                 s = mkSpline (Finite r) f0 f0 f0 (Finite p)) E)
    | |auto].
  - intros i Hi. apply in_range in Hi. unfold lines in Hi.
    destruct (lookup_lt_is_Some_2 res (Z.to_nat i)) as [r Hr]; [lia|].
    destruct (lookup_lt_is_Some_2 args (Z.to_nat i)) as [p Hp]; [lia|].
    rewrite <- (Z2Nat.id i) by lia.
    rewrite (getitem_lookup res _ r Hr). cbn [bind].
    rewrite (getitem_lookup args _ p Hp). cbn [bind outcome].
    exists (Z.to_nat i), r, p. auto.
  - intros sp Hsp. split.
    + rewrite <- (Forall2_length _ _ _ Hsp), length_range. unfold lines. lia.
    + intros k s Hs.
      destruct (Forall2_lookup_r _ _ _ _ _ Hsp Hs)
        as (i & Hi & k' & r & p & -> & Hr & Hp & ->).
      assert (Hk : (k < length args)%nat).
      { apply lookup_lt_Some in Hs.
        rewrite <- (Forall2_length _ _ _ Hsp), length_range in Hs.
        unfold lines in Hs. lia. }
      unfold lines in Hi. rewrite (range_lookup _ _ Hk) in Hi.
      injection Hi as Hi. apply Nat2Z.inj in Hi. subst k'. eauto.
Qed.

Lemma initial_splines_fresh (E : exn -> Prop) :
  (1 <= length args <= length res)%nat ->
  outcome (fresh args res) E (initial_splines args res lines).
Proof.
  intros [H1 Hres]. unfold initial_splines.
  apply outcome_bind with (fresh args res); [apply comprehension_fresh, Hres|].
  intros sp Hsp.
  change 0%Z with (Z.of_nat 0).
  rewrite (fresh_set_c sp 0 Hsp) by lia. cbn [bind].
  replace (lines - 1)%Z with (Z.of_nat (length args - 1)) by (unfold lines; lia).
  rewrite (fresh_set_c sp _ Hsp) by lia. exact Hsp.
Qed.

(** Only an index can go wrong before the sweeps, and it does for an
    empty sample set and for missing results. *)
Lemma initial_splines_raises :
  outcome (fun _ => (1 <= length args <= length res)%nat) (eq IndexError)
          (initial_splines args res lines).
Proof.
  destruct (Nat.le_gt_cases (length args) (length res)) as [Hle|Hgt].
  - destruct (Nat.eq_dec (length args) 0) as [H0|H0].
    + unfold initial_splines, lines. rewrite H0. cbn.
      reflexivity.
    + eapply outcome_impl;
        [apply (initial_splines_fresh (eq IndexError)); lia| |auto].
      intros _ _. lia.
  - unfold initial_splines.
    destruct (comprehension _ (range 0 lines)) as [sp|e] eqn:Hc; cbn [bind].
    + exfalso. apply comprehension_Forall2 in Hc.
      assert (Hin : range 0 lines !! length res = Some (Z.of_nat (length res))).
      { unfold lines. apply range_lookup. lia. }
      destruct (Forall2_lookup_l _ _ _ _ _ Hc Hin) as (s & _ & Hs).
      rewrite getitem_ge in Hs by lia. discriminate.
    + pose proof (comprehension_outcome (fun _ _ => True) (eq IndexError)
                   (fun i =>
                      r <- getitem res i ;;
                      arg <- getitem args i ;;
                      Ok {| a := Finite r; b := f0; c := f0; d := f0;
                            x := Finite arg |})
                   (range 0 lines)) as Hout.
      rewrite Hc in Hout. apply Hout. intros i _.
      apply outcome_bind with (fun _ => True); [apply getitem_raises|].
      intros r _.
      apply outcome_bind with (fun _ => True); [apply getitem_raises|].
      intros p _. exact I.
Qed.

Variable E : exn -> Prop.
Hypothesis Hdiv : E ZeroDivisionError \/ distinct_neighbours args.

Lemma solve_equations_system_outcome (sp : list Spline) :
  inv args res sp -> (1 <= length args)%nat ->
  outcome (inv args res) E (solve_equations_system res lines sp).
Proof.
  intros Hinv H1. unfold solve_equations_system, np_zeros.
  destruct (Z.ltb_spec (lines - 1) 0) as [Hneg|_]; [unfold lines in Hneg; lia|].
  cbn [bind].
  apply outcome_bind
    with (fun st => length st.1 = (length args - 1)%nat /\
                    length st.2 = (length args - 1)%nat).
  - apply for_each_outcome.
    + intros i st Hi [Ha Hb]. apply in_range in Hi. unfold lines in Hi.
      rewrite <- (Z2Nat.id i) by lia.
      apply forward_step_outcome; auto. lia.
    + simpl. rewrite length_replicate. unfold lines. lia.
  - intros [alpha beta] [Ha Hb]. simpl in Ha, Hb. cbn [fst snd].
    apply for_each_outcome; [|exact Hinv].
    intros i sp' Hi Hinv'. apply in_range_down in Hi. unfold lines in Hi.
    rewrite <- (Z2Nat.id i) by lia.
    apply backward_step_outcome; auto. lia.
Qed.

Lemma sweep_outcome (sp : list Spline) :
  inv args res sp ->
  outcome (inv args res) E
          (for_each (range_down (lines - 1) 0) (sweep_step res) sp).
Proof.
  intros Hinv. apply for_each_outcome; [|exact Hinv].
  intros i sp' Hi Hinv'. apply in_range_down in Hi. unfold lines in Hi.
  rewrite <- (Z2Nat.id i) by lia.
  apply sweep_step_outcome; auto. lia.
Qed.

Lemma build_outcome :
  (1 <= length args <= length res)%nat ->
  outcome (inv args res) E (build args res lines).
Proof.
  intros Hlen. unfold build.
  apply outcome_bind with (inv args res).
  { eapply outcome_impl; [apply (initial_splines_fresh E), Hlen| |auto].
    apply fresh_inv. }
  intros sp0 H0.
  apply outcome_bind with (inv args res).
  { apply solve_equations_system_outcome; [exact H0|lia]. }
  intros sp1 H1. apply sweep_outcome, H1.
Qed.

End Build.

(** On valid input [build] returns, and what it returns satisfies the
    invariant of its loops. *)
Lemma build_valid (args res : list Q) :
  valid_input args res ->
  exists sp, build args res (Z.of_nat (length args)) = Ok sp /\
             inv args res sp.
Proof.
  intros (Hlen & H2 & Hasc).
  apply (outcome_Ok _ (fun _ => False)); [|auto].
  apply build_outcome; [right; apply ascending_distinct, Hasc|lia].
Qed.

(** ** The binary search is monotone in the query, whatever the list *)

Lemma bisect_loop_bounds (a : list Q) (q : Q) (fuel lo hi : nat) :
  (lo <= hi)%nat ->
  (lo <= bisect_loop fuel a q lo hi <= hi)%nat.
Proof.
  revert lo hi. induction fuel as [|fuel IH]; intros lo hi Hle;
    cbn [bisect_loop]; [lia|].
  destruct (Nat.ltb_spec lo hi) as [Hlt|Hge]; [|lia].
  set (mid := ((lo + hi) / 2)%nat).
  assert (Hmid : (lo <= mid < hi)%nat).
  { unfold mid. split.
    - apply Nat.div_le_lower_bound; lia.
    - apply Nat.Div0.div_lt_upper_bound; lia. }
  clearbody mid.
  destruct (Qlt_bool (nth mid a q) q).
  - specialize (IH (mid + 1)%nat hi). lia.
  - specialize (IH lo mid). lia.
Qed.

Lemma bisect_loop_monotone (a : list Q) (p q : Q) (fuel lo hi : nat) :
  (p <= q)%Q -> (lo <= hi <= length a)%nat ->
  (bisect_loop fuel a p lo hi <= bisect_loop fuel a q lo hi)%nat.
Proof.
  intros Hpq. revert lo hi. induction fuel as [|fuel IH]; intros lo hi Hb;
    cbn [bisect_loop]; [lia|].
  destruct (Nat.ltb_spec lo hi) as [Hlt|Hge]; [|lia].
  set (mid := ((lo + hi) / 2)%nat).
  assert (Hmid : (lo <= mid < hi)%nat).
  { unfold mid. split.
    - apply Nat.div_le_lower_bound; lia.
    - apply Nat.Div0.div_lt_upper_bound; lia. }
  clearbody mid.
  destruct (lookup_lt_is_Some_2 a mid) as [m Hm]; [lia|].
  rewrite !(nth_lookup_Some _ _ _ _ Hm).
  destruct (Qlt_bool m p) eqn:Hp; destruct (Qlt_bool m q) eqn:Hq.
  - apply IH. lia.
  - apply Qlt_bool_iff in Hp. apply Qlt_bool_false in Hq. lra.
  - pose proof (bisect_loop_bounds a p fuel lo mid).
    pose proof (bisect_loop_bounds a q fuel (mid + 1) hi). lia.
  - apply IH. lia.
Qed.

Lemma inv_natural (args res : list Q) (sp : list Spline) :
  (1 <= length args)%nat -> inv args res sp -> natural sp.
Proof.
  intros H1 ((Hl & Hk) & Hf & Hc).
  destruct (lookup_lt_is_Some_2 sp 0) as [s Hs]; [lia|].
  destruct (lookup_lt_is_Some_2 sp (length args - 1)) as [t Ht]; [lia|].
  exists s, t. rewrite head_lookup, last_lookup, Hl.
  replace (Init.Nat.pred (length args)) with (length args - 1)%nat by lia.
  repeat split; auto. apply (Hf s Hs).
Qed.

Lemma build_stages (args res : list Q) :
  valid_input args res ->
  exists sp0 sp1 sp,
    initial_splines args res (Z.of_nat (length args)) = Ok sp0 /\
    solve_equations_system res (Z.of_nat (length args)) sp0 = Ok sp1 /\
    for_each (range_down (Z.of_nat (length args) - 1) 0) (sweep_step res) sp1
      = Ok sp /\
    build args res (Z.of_nat (length args)) = Ok sp /\
    inv args res sp0 /\ inv args res sp1 /\ inv args res sp.
Proof.
  intros (Hlen & H2 & Hasc).
  pose proof (ascending_distinct args Hasc) as Hd.
  destruct (outcome_Ok _ (fun _ => False) _
              (initial_splines_fresh args res _ (conj (Nat.le_trans 1 2 _ (le_S 1 1 (le_n 1)) H2)
                 (Nat.eq_le_incl _ _ Hlen))))
    as (sp0 & H0 & Hf0); [auto|].
  apply fresh_inv in Hf0.
  destruct (outcome_Ok _ (fun _ => False) _
              (solve_equations_system_outcome args res _ (or_intror Hd) sp0 Hf0
                 (Nat.le_trans 1 2 _ (le_S 1 1 (le_n 1)) H2)))
    as (sp1 & H1 & Hf1); [auto|].
  destruct (outcome_Ok _ (fun _ => False) _
              (sweep_outcome args res _ (or_intror Hd) sp1 Hf1))
    as (sp & Hsw & Hf); [auto|].
  exists sp0, sp1, sp. unfold build. rewrite H0. cbn [bind]. rewrite H1.
  cbn [bind]. auto 10.
Qed.

Lemma cubic_finite (s : Spline) (al be ga de t : Q) :
  a s = Finite al -> b s = Finite be -> c s = Finite ga -> d s = Finite de ->
  cubic s (Finite t)
  = Finite (al + be * t + ga * t ^ 2 / 2 + de * t ^ 3 / 6).
Proof. intros Ha Hb Hc Hd. unfold cubic. rewrite Ha, Hb, Hc, Hd. reflexivity. Qed.

(** ** What the last loop of [build] computes *)

Lemma range_down_S (j : nat) :
  range_down (Z.of_nat (S j)) 0 = Z.of_nat (S j) :: range_down (Z.of_nat j) 0.
Proof.
  unfold range_down.
  replace (Z.to_nat (Z.of_nat (S j) - 0)) with (S j) by lia.
  replace (Z.to_nat (Z.of_nat j - 0)) with j by lia.
  change (seq 0 (S j)) with (0%nat :: seq 1 j).
  rewrite <- seq_shift, map_cons, map_map. f_equal.
  apply map_ext. intros k. lia.
Qed.

Lemma truediv_cases (u : float) (z : Q) :
  truediv u (Finite z)
  = if Qeq_bool z 0 then Raise ZeroDivisionError
    else Ok (np_truediv u (Finite z)).
Proof. reflexivity. Qed.

Section Sweep.

Variable args res : list Q.
Variable E : exn -> Prop.
Hypothesis Hdiv : E ZeroDivisionError \/ distinct_neighbours args.

Lemma derived_insert (sp : list Spline) (k j : nat) (s : Spline)
    (upd : Spline -> Spline) :
  sp !! j = Some s -> j <> k -> (forall t, c (upd t) = c t) ->
  derived args res sp k -> derived args res (<[j := upd s]> sp) k.
Proof.
  intros Hs Hjk Hc (sk & t & p & q & r & r' & Hk & Ht & Hp & Hq & Hr' & Hr & Hd & Hb).
  assert (Hj : (j < length sp)%nat) by (eapply lookup_lt_Some; eauto).
  destruct (Nat.eq_dec j (k - 1)) as [->|Hne].
  - assert (t = s) by congruence. subst t.
    exists sk, (upd s), p, q, r, r'.
    rewrite list_lookup_insert_ne by exact Hjk.
    rewrite list_lookup_insert_eq by exact Hj.
    rewrite Hc. auto 10.
  - exists sk, t, p, q, r, r'.
    rewrite !list_lookup_insert_ne by auto. auto 10.
Qed.

Lemma sweep_step_derived (sp : list Spline) (k : nat) :
  inv args res sp -> (1 <= k < length args)%nat ->
  (forall j, (k < j < length args)%nat -> derived args res sp j) ->
  outcome (fun sp' => inv args res sp' /\
             forall j, (k <= j < length args)%nat -> derived args res sp' j)
          E (sweep_step res (Z.of_nat k) sp).
Proof.
  intros Hinv Hk Hder. unfold sweep_step.
  replace (Z.of_nat k - 1)%Z with (Z.of_nat (k - 1)) by lia.
  pose proof (inv_length _ _ sp Hinv) as Hlen.
  destruct (lookup_lt_is_Some_2 sp k) as [s_i Hsi]; [lia|].
  destruct (lookup_lt_is_Some_2 sp (k - 1)) as [s_prev Hsp]; [lia|].
  rewrite (getitem_lookup sp k s_i Hsi). cbn [bind].
  rewrite (getitem_lookup sp (k - 1) s_prev Hsp). cbn [bind].
  destruct (inv_x _ _ sp k s_i Hinv Hsi) as (q & Hq & Hxq).
  destruct (inv_x _ _ sp (k - 1) s_prev Hinv Hsp) as (p & Hp & Hxp).
  destruct (inv_res _ _ sp k Hinv) as [r_i Hri]; [lia|].
  destruct (inv_res _ _ sp (k - 1) Hinv) as [r_prev Hrp]; [lia|].
  rewrite Hxq, Hxp. cbn [fsub lift2]. rewrite !truediv_cases.
  destruct (Qeq_bool (q - p) 0) eqn:Hz; cbn [bind].
  { destruct Hdiv as [H|H]; [exact H|exfalso].
    apply Qeq_bool_eq in Hz.
    apply (distinct_neighbours_lookup args (k - 1) p q H Hp);
      [replace (S (k - 1)) with k by lia; exact Hq|lra]. }
  rewrite (setattr_lookup sp k s_i _ Hsi). cbn [bind].
  assert (Hk' : (k < length sp)%nat) by lia.
  rewrite (getitem_lookup _ k _ (list_lookup_insert_eq sp k _ Hk')). cbn [bind].
  assert (Hsp' : <[k := set_d (np_truediv (fsub (c s_i) (c s_prev))
                                 (Finite (q - p))) s_i]> sp !! (k - 1)%nat
                 = Some s_prev).
  { rewrite list_lookup_insert_ne by lia. exact Hsp. }
  rewrite (getitem_lookup _ (k - 1) _ Hsp'). cbn [bind].
  rewrite (result_at_lookup res k r_i Hri). cbn [bind].
  rewrite (result_at_lookup res (k - 1) r_prev Hrp). cbn [bind].
  rewrite truediv_cases, Hz. cbn [bind c set_d].
  rewrite (setattr_lookup _ k _ _ (list_lookup_insert_eq sp k _ Hk')).
  cbn [outcome]. rewrite list_insert_insert_eq.
  split.
  - apply (inv_insert args res sp k s_i (fun t => set_b _ (set_d _ t)));
      auto. lia.
  - intros j Hj. destruct (Nat.eq_dec j k) as [->|Hne].
    + eexists _, s_prev, p, q, r_i, r_prev.
      rewrite list_lookup_insert_eq by exact Hk'.
      rewrite list_lookup_insert_ne by lia.
      split; [reflexivity|]. cbn. auto 10.
    + apply (derived_insert sp j k s_i
               (fun t => set_b _ (set_d _ t))); auto.
      apply Hder. lia.
Qed.

Lemma sweep_derived (j : nat) :
  forall sp, inv args res sp -> (j < length args)%nat ->
  (forall k, (j < k < length args)%nat -> derived args res sp k) ->
  outcome (fun sp' => inv args res sp' /\
             forall k, (1 <= k < length args)%nat -> derived args res sp' k)
          E (for_each (range_down (Z.of_nat j) 0) (sweep_step res) sp).
Proof.
  induction j as [|j IH]; intros sp Hinv Hj Hder.
  - cbn. split; [exact Hinv|]. intros k Hk. apply Hder. lia.
  - rewrite range_down_S. cbn [for_each].
    apply outcome_bind
      with (fun sp' => inv args res sp' /\
              forall k, (S j <= k < length args)%nat -> derived args res sp' k).
    + apply sweep_step_derived; auto. lia.
    + intros sp' [Hinv' Hder']. apply IH; [exact Hinv'|lia|].
      intros k Hk. apply Hder'. lia.
Qed.

End Sweep.

(** On valid input every record but the first is as the last loop
    derives it. *)
Lemma build_derived (args res : list Q) :
  valid_input args res ->
  exists sp, build args res (Z.of_nat (length args)) = Ok sp /\
             inv args res sp /\
             forall k, (1 <= k < length args)%nat -> derived args res sp k.
Proof.
  intros Hv. pose proof Hv as (Hlen & H2 & Hasc).
  destruct (build_stages args res Hv)
    as (sp0 & sp1 & sp & H0 & H1 & Hsw & Hb & Hi0 & Hi1 & Hi).
  exists sp. split; [exact Hb|]. split; [exact Hi|].
  pose proof (sweep_derived args res (fun _ => False)
                (or_intror (ascending_distinct args Hasc))
                (length args - 1) sp1 Hi1) as Hout.
  replace (Z.of_nat (length args - 1)) with (Z.of_nat (length args) - 1)%Z
    in Hout by lia.
  rewrite Hsw in Hout. apply Hout; [lia|]. intros k Hk. lia.
Qed.

(** At an interior knot the two segments have the same value and the
    same second derivative, for every valid input whose solved [c] are
    finite: both follow from the last loop alone, whatever the solved
    [c] are.  The first derivative depends on the solved [c]. *)
Lemma value_and_curvature_continuous (args res : list Q) (sp : list Spline)
    (i : nat) (s s' : Spline) :
  valid_input args res ->
  build args res (Z.of_nat (length args)) = Ok sp ->
  (forall j t, sp !! j = Some t -> is_finite (c t)) ->
  (1 <= i)%nat -> sp !! i = Some s -> sp !! S i = Some s' ->
  float_eq (cubic s f0) (cubic s' (fsub (x s) (x s'))) /\
  float_eq (cubic_d2 s f0) (cubic_d2 s' (fsub (x s) (x s'))).
Proof.
  intros Hv Hb Hfin Hi Hs Hs'. pose proof Hv as (Hlen & H2 & Hasc).
  destruct (build_derived args res Hv) as (sp_ & Hb_ & Hinv & Hder).
  assert (sp_ = sp) by congruence. subst sp_.
  pose proof (inv_length _ _ _ Hinv) as Hsp.
  assert (HSi : (S i < length args)%nat)
    by (apply lookup_lt_Some in Hs'; lia).
  destruct (Hder i) as (s1 & t & p & q & r & r' & Hk & Ht & Hp & Hq & Hr' & Hr & Hd & Hbb);
    [lia|].
  destruct (Hder (S i)) as (s2 & t2 & p2 & q2 & r2 & r2' & Hk2 & Ht2 & Hp2 & Hq2 & Hr2' & Hr2 & Hd2 & Hbb2);
    [lia|].
  replace (S i - 1)%nat with i in * by lia.
  assert (s1 = s) by congruence. assert (s2 = s') by congruence.
  assert (t2 = s) by congruence. assert (p2 = q) by congruence.
  assert (r2' = r) by congruence. subst s1 s2 t2 p2 r2'.
  pose proof (Hfin _ _ Hs) as Fc. pose proof (Hfin _ _ Hs') as Fc'.
  pose proof (Hfin _ _ Ht) as Fct.
  destruct (c s) as [ga|] eqn:Ec; [|destruct Fc].
  destruct (c s') as [ga'|] eqn:Ec'; [|destruct Fc'].
  destruct (c t) as [gat|] eqn:Ect; [|destruct Fct].
  assert (Hpq : ~ (p == q)%Q).
  { apply (distinct_neighbours_lookup args (i - 1) p q);
      auto using ascending_distinct.
    replace (S (i - 1)) with i by lia. exact Hq. }
  assert (Hqq : ~ (q == q2)%Q).
  { apply (distinct_neighbours_lookup args i q q2);
      auto using ascending_distinct. }
  assert (Hz : Qeq_bool (q - p) 0 = false).
  { apply not_true_is_false. intros H. apply Qeq_bool_eq in H. lra. }
  assert (Hz2 : Qeq_bool (q2 - q) 0 = false).
  { apply not_true_is_false. intros H. apply Qeq_bool_eq in H. lra. }
  cbn [fsub fadd fmul lift2 np_truediv f2 f6] in Hd, Hbb, Hd2, Hbb2.
  rewrite Hz in Hd, Hbb. rewrite Hz2 in Hd2, Hbb2.
  change (Qeq_bool 6 0) with false in Hbb, Hbb2.
  destruct Hinv as ((_ & Hknots) & _ & _).
  destruct (Hknots _ _ Hs) as (ra & pa & Hra & Hpa & Ha & Hx).
  destruct (Hknots _ _ Hs') as (ra' & pa' & Hra' & Hpa' & Ha' & Hx').
  assert (ra = r) by congruence. assert (pa = q) by congruence.
  assert (ra' = r2) by congruence. assert (pa' = q2) by congruence.
  subst ra pa ra' pa'.
  rewrite Hx, Hx'. cbn [fsub lift2]. unfold f0.
  rewrite (cubic_finite s _ _ _ _ 0 Ha Hbb Ec Hd).
  rewrite (cubic_finite s' _ _ _ _ (q - q2) Ha' Hbb2 Ec' Hd2).
  unfold cubic_d2. rewrite Ec, Ec', Hd, Hd2. cbn [fadd fmul lift2 float_eq].
  split; field; lra.
Qed.

Lemma bisect_left_monotone (a : list Q) (p q : Q) :
  (p <= q)%Q -> (bisect_left a p <= bisect_left a q)%nat.
Proof.
  intros Hq. unfold bisect_left. apply bisect_loop_monotone; [exact Hq|lia].
Qed.

(** The indices found for an ascending sequence of queries. *)
Lemma lookup_indices_nondecreasing (args queries : list Q) (i j m n : nat) :
  nondecreasing queries -> (i <= j)%nat ->
  map (bisect_left args) queries !! i = Some m ->
  map (bisect_left args) queries !! j = Some n ->
  (m <= n)%nat.
Proof.
  intros Hs Hij Hi Hj.
  change (map (bisect_left args) queries) with (bisect_left args <$> queries)
    in Hi, Hj.
  rewrite list_lookup_fmap in Hi, Hj.
  destruct (queries !! i) as [p|] eqn:Hp; [|discriminate].
  destruct (queries !! j) as [q|] eqn:Hq; [|discriminate].
  injection Hi as <-. injection Hj as <-.
  apply bisect_left_monotone. eapply nondecreasing_lookup; eauto.
Qed.

(** ** The claims *)

(** C4.  On valid input the first and the last record have [c = 0]: this
    holds when the records are created and the boundary condition is
    assigned, it still holds after the sweeps of [solve_equations_system]
    and after the last loop of [build], and the instance stores the
    records that [build] returned, unchanged by the evaluations of its
    constructor. *)
Theorem natural_boundary (args res : list Q) :
  valid_input args res ->
  exists sp0 sp1 sp,
    initial_splines args res (Z.of_nat (length args)) = Ok sp0 /\
    solve_equations_system res (Z.of_nat (length args)) sp0 = Ok sp1 /\
    for_each (range_down (Z.of_nat (length args) - 1) 0) (sweep_step res) sp1
      = Ok sp /\
    build args res (Z.of_nat (length args)) = Ok sp /\
    natural sp0 /\ natural sp1 /\ natural sp /\
    length sp = length args /\
    forall queries self,
      __init__ args res queries = Ok self -> splines self = sp.
Proof.
  intros Hv. pose proof Hv as (Hlen & H2 & Hasc).
  destruct (build_stages args res Hv)
    as (sp0 & sp1 & sp & H0 & H1 & Hsw & Hb & Hi0 & Hi1 & Hi).
  exists sp0, sp1, sp.
  repeat (split; [first [assumption | eapply inv_natural; [|eassumption]; lia
                         | eapply inv_length; eassumption]|]).
  intros queries self Hinit. unfold __init__ in Hinit. rewrite Hb in Hinit.
  cbn [bind] in Hinit.
  destruct (comprehension _ queries); cbn [bind] in Hinit; [|discriminate].
  injection Hinit as <-. reflexivity.
Qed.

Lemma natural_boundary_witness :
  valid_input [0; 1; 2; 3]%Q [0; 1; 0; 1]%Q /\
  exists sp, build [0; 1; 2; 3]%Q [0; 1; 0; 1]%Q 4 = Ok sp /\ natural sp.
Proof.
  assert (Hv : valid_input [0; 1; 2; 3]%Q [0; 1; 0; 1]%Q).
  { split; [reflexivity|]. split; [simpl; lia|].
    simpl. repeat split; reflexivity. }
  split; [exact Hv|].
  destruct (natural_boundary [0; 1; 2; 3]%Q [0; 1; 0; 1]%Q Hv)
    as (sp0 & sp1 & sp & _ & _ & _ & Hb & _ & _ & Hn & _).
  exists sp. split; [exact Hb|exact Hn].
Defined.

(** C7.  On valid input a query below the first knot is looked up at
    index 0, and a query above the last knot at index N, one past the N
    records: the access [self.splines[index]] raises [IndexError]. *)
Theorem out_of_range_lookup (args res : list Q) (first_knot last_knot : Q) :
  valid_input args res ->
  head args = Some first_knot -> last args = Some last_knot ->
  exists sp,
    build args res (Z.of_nat (length args)) = Ok sp /\
    length sp = length args /\
    (forall q, (q < first_knot)%Q -> bisect_left args q = 0%nat) /\
    (forall q, (last_knot < q)%Q ->
       bisect_left args q = length args /\
       interpolate args sp q = Raise IndexError).
Proof.
  intros Hv Hh Hl. pose proof Hv as (Hlen & H2 & Hasc).
  destruct (build_valid args res Hv) as (sp & Hb & Hinv).
  pose proof (inv_length _ _ _ Hinv) as Hsp.
  pose proof (ascending_nondecreasing args Hasc) as Hnd.
  exists sp. repeat split; auto.
  - intros q Hq. rewrite head_lookup in Hh.
    apply (bisect_left_below args q first_knot); auto.
  - apply (bisect_left_above args q last_knot); auto.
  - unfold interpolate.
    rewrite (bisect_left_above args q last_knot) by auto.
    rewrite getitem_ge by lia. reflexivity.
Qed.

Lemma out_of_range_lookup_witness :
  valid_input [0; 1; 2; 3]%Q [0; 1; 0; 1]%Q /\
  bisect_left [0; 1; 2; 3]%Q (-1) = 0%nat /\
  bisect_left [0; 1; 2; 3]%Q 4 = 4%nat /\
  exists sp, build [0; 1; 2; 3]%Q [0; 1; 0; 1]%Q 4 = Ok sp /\
             interpolate [0; 1; 2; 3]%Q sp 4 = Raise IndexError.
Proof.
  assert (Hv : valid_input [0; 1; 2; 3]%Q [0; 1; 0; 1]%Q).
  { split; [reflexivity|]. split; [simpl; lia|].
    simpl. repeat split; reflexivity. }
  destruct (out_of_range_lookup [0; 1; 2; 3]%Q [0; 1; 0; 1]%Q 0 3 Hv
              eq_refl eq_refl) as (sp & Hb & _ & Hlo & Hhi).
  split; [exact Hv|]. split; [apply Hlo; reflexivity|].
  split; [apply Hhi; reflexivity|].
  exists sp. split; [exact Hb|]. apply Hhi. reflexivity.
Defined.

(** C8.  The lookup is monotone: the index found for a query is not
    above the index found for a greater or equal query, so an ascending
    sequence of queries is looked up at a non-decreasing sequence of
    indices.  (The binary search has this property on every list.) *)
Theorem lookup_monotone (args : list Q) (query1 query2 : Q) :
  (query1 <= query2)%Q ->
  (bisect_left args query1 <= bisect_left args query2)%nat.
Proof.
  intros Hq. unfold bisect_left.
  apply bisect_loop_monotone; [exact Hq|].
  split; [apply Nat.le_0_l|apply Nat.le_refl].
Qed.

Lemma lookup_monotone_witness :
  (1 # 2 <= 5 # 2)%Q /\
  (bisect_left [0; 1; 2; 3]%Q (1 # 2) <= bisect_left [0; 1; 2; 3]%Q (5 # 2))%nat.
Proof.
  assert (H : (1 # 2 <= 5 # 2)%Q) by (vm_compute; discriminate).
  split; [exact H|]. apply (lookup_monotone [0; 1; 2; 3]%Q _ _ H).
Defined.



(** Evaluation of closed or nearly closed runs: everything but the
    rational operations is computed. *)
Ltac run :=
  cbv - [Qplus Qminus Qmult Qdiv Qpower Qopp Qinv Qeq_bool Qle_bool].


(** On valid input the query [x[i]] is answered from record [i] at
    [delta = 0]; the answer is [results[i]] when the [b], [c] and [d] of
    that record are finite, and it is not a number otherwise. *)
Lemma interpolate_at_knot (args res : list Q) (i : nat) (p r : Q) :
  valid_input args res -> args !! i = Some p -> res !! i = Some r ->
  exists sp s,
    build args res (Z.of_nat (length args)) = Ok sp /\
    sp !! i = Some s /\ a s = Finite r /\ x s = Finite p /\
    interpolate args sp p = Ok (cubic s (Finite (p - p))) /\
    (is_finite (b s) -> is_finite (c s) -> is_finite (d s) ->
     float_eq (cubic s (Finite (p - p))) (Finite r)) /\
    (~ (is_finite (b s) /\ is_finite (c s) /\ is_finite (d s)) ->
     cubic s (Finite (p - p)) = NonFinite).
Proof.
  intros Hv Hp Hr. pose proof Hv as (Hlen & H2 & Hasc).
  destruct (build_valid args res Hv) as (sp & Hb & Hinv).
  pose proof (inv_length _ _ _ Hinv) as Hsp.
  destruct (lookup_lt_is_Some_2 sp i) as [s Hs];
    [apply lookup_lt_Some in Hp; lia|].
  destruct Hinv as ((_ & Hk) & _ & _).
  destruct (Hk _ _ Hs) as (r' & p' & Hr' & Hp' & Ha & Hx).
  assert (r' = r) by congruence. assert (p' = p) by congruence. subst r' p'.
  exists sp, s. repeat split; auto.
  - unfold interpolate. rewrite (bisect_left_knot args i p Hasc Hp).
    rewrite (getitem_lookup sp i s Hs). cbn [bind]. now rewrite Hx.
  - intros Hfb Hfc Hfd.
    destruct (b s) as [be|] eqn:Eb; [|destruct Hfb].
    destruct (c s) as [ga|] eqn:Ec; [|destruct Hfc].
    destruct (d s) as [de|] eqn:Ed; [|destruct Hfd].
    rewrite (cubic_finite s r be ga de _ Ha Eb Ec Ed).
    cbn [float_eq]. field.
  - intros Hnf. unfold cubic. rewrite Ha.
    destruct (b s) as [be|]; [|reflexivity].
    destruct (c s) as [ga|]; [|reflexivity].
    destruct (d s) as [de|]; [|reflexivity].
    destruct Hnf. simpl. auto.
Qed.

(** C3, at a valid input where it fails.  With the arguments
    0, 1/16, 17/16, 33/16 the divider of the second round of the forward
    sweep is [1 * (-4 + 2 * (1 + 1)) = 0]: the solved [c] of the inner
    records are not numbers, and the spline evaluated at the knot [1/16]
    is not [results[1]]. *)
Theorem knot_value_lost :
  valid_input [0; 1 # 16; 17 # 16; 33 # 16]%Q [0; 0; 0; 0]%Q /\
  exists sp s1,
    build [0; 1 # 16; 17 # 16; 33 # 16]%Q [0; 0; 0; 0]%Q 4 = Ok sp /\
    sp !! 1%nat = Some s1 /\
    b s1 = NonFinite /\ c s1 = NonFinite /\ d s1 = NonFinite /\
    interpolate [0; 1 # 16; 17 # 16; 33 # 16]%Q sp (1 # 16) = Ok NonFinite /\
    (forall r, ~ float_eq NonFinite (Finite r)) /\
    exists self,
      __init__ [0; 1 # 16; 17 # 16; 33 # 16]%Q [0; 0; 0; 0]%Q [1 # 16] = Ok self /\
      interpolated_data self = [NonFinite].
Proof.
  split.
  { split; [reflexivity|]. split; [simpl; lia|].
    simpl. repeat split; reflexivity. }
  eexists _, _.
  split; [vm_compute; reflexivity|].
  split; [reflexivity|].
  repeat (split; [reflexivity|]).
  split; [intros r H; exact H|].
  eexists. split; vm_compute; reflexivity.
Qed.

(** C1, at a valid input where it fails.  With the arguments 0, 2, 4 and
    the results 0, 1, 0 the forward sweep divides by
    [2 * (0 + 2 * (1 + 2)) = 12], where the condition of a continuous
    first derivative asks for [2 * (2 + 2) = 8]: at the interior knot the
    value and the second derivative of the two segments agree, the first
    derivative is 1/6 on one side and -1/6 on the other. *)
Theorem first_derivative_jump :
  valid_input [0; 2; 4]%Q [0; 1; 0]%Q /\
  exists s0 s1 s2,
    build [0; 2; 4]%Q [0; 1; 0]%Q 3 = Ok [s0; s1; s2] /\
    float_eq (c s1) (Finite (-1 # 2)) /\
    let delta := fsub (x s1) (x s2) in
    float_eq (cubic s1 f0) (cubic s2 delta) /\
    float_eq (cubic_d2 s1 f0) (cubic_d2 s2 delta) /\
    float_eq (cubic_d1 s1 f0) (Finite (1 # 6)) /\
    float_eq (cubic_d1 s2 delta) (Finite (-1 # 6)) /\
    ~ float_eq (cubic_d1 s1 f0) (cubic_d1 s2 delta).
Proof.
  split.
  { split; [reflexivity|]. split; [simpl; lia|].
    simpl. repeat split; reflexivity. }
  eexists _, _, _.
  split; [vm_compute; reflexivity|].
  repeat (split; [vm_compute; reflexivity|]).
  vm_compute. discriminate.
Qed.

(** C6, at an input where it fails.  For the samples (0,0), (1,1), the
    queries 0 and 1 and the identity as true function, every query is
    compared with the first interpolated value, 0: the program reports
    the error 1, the pointwise maximum is 0. *)
Theorem error_against_first_value :
  exists self e e',
    __init__ [0; 1]%Q [0; 1]%Q [0; 1]%Q = Ok self /\
    get_interpolation_error self Finite = Ok e /\ float_eq e (Finite 1) /\
    pointwise_error self Finite = Ok e' /\ float_eq e' (Finite 0) /\
    ~ float_eq e e'.
Proof.
  eexists _, _, _.
  split; [vm_compute; reflexivity|].
  split; [vm_compute; reflexivity|].
  split; [vm_compute; reflexivity|].
  split; [vm_compute; reflexivity|].
  split; [vm_compute; reflexivity|].
  vm_compute. discriminate.
Qed.



(** ** Which inputs [build] refuses *)

Lemma distinct_neighbours_intro (l : list Q) :
  (forall k p q, l !! k = Some p -> l !! S k = Some q -> ~ (p == q)%Q) ->
  distinct_neighbours l.
Proof.
  induction l as [|p [|q t] IH]; intros H; simpl; auto.
  split.
  - apply (H 0%nat p q); reflexivity.
  - apply IH. intros k p' q' Hp Hq. apply (H (S k) p' q'); assumption.
Qed.

Lemma distinct_neighbours_dec (l : list Q) :
  {distinct_neighbours l} + {~ distinct_neighbours l}.
Proof.
  induction l as [|p [|q t] IH]; simpl; auto.
  destruct (Qeq_dec p q) as [Heq|Hne]; [right; tauto|].
  destruct IH as [Hd|Hd]; [left; tauto|right; tauto].
Qed.

Lemma outcome_of_Ok {A : Type} (P : A -> Prop) (r : result A) (v : A) :
  outcome P (fun _ => True) r -> r = Ok v -> P v.
Proof. intros H ->. exact H. Qed.

(** A round of the last loop that completes has divided by a non-zero
    distance between two neighbouring arguments. *)
Lemma sweep_step_Ok (args res : list Q) (sp sp' : list Spline) (k : nat) :
  inv args res sp -> (1 <= k < length args)%nat ->
  sweep_step res (Z.of_nat k) sp = Ok sp' ->
  inv args res sp' /\
  forall p q, args !! (k - 1)%nat = Some p -> args !! k = Some q ->
              ~ (p == q)%Q.
Proof.
  intros Hinv Hk Hrun. split.
  - apply (outcome_of_Ok _ (sweep_step res (Z.of_nat k) sp)); [|exact Hrun].
    apply sweep_step_outcome; auto.
  - intros p q Hp Hq. unfold sweep_step in Hrun.
    replace (Z.of_nat k - 1)%Z with (Z.of_nat (k - 1)) in Hrun by lia.
    pose proof (inv_length _ _ sp Hinv) as Hlen.
    destruct (lookup_lt_is_Some_2 sp k) as [s_i Hsi]; [lia|].
    destruct (lookup_lt_is_Some_2 sp (k - 1)) as [s_prev Hsp]; [lia|].
    rewrite (getitem_lookup sp k s_i Hsi) in Hrun. cbn [bind] in Hrun.
    rewrite (getitem_lookup sp (k - 1) s_prev Hsp) in Hrun. cbn [bind] in Hrun.
    destruct (inv_x _ _ sp k s_i Hinv Hsi) as (q' & Hq' & Hxq).
    destruct (inv_x _ _ sp (k - 1) s_prev Hinv Hsp) as (p' & Hp' & Hxp).
    assert (q' = q) by congruence. assert (p' = p) by congruence. subst q' p'.
    rewrite Hxq, Hxp in Hrun. cbn [fsub lift2] in Hrun.
    destruct (truediv (fsub (c s_i) (c s_prev)) (Finite (q - p)))
      as [dv|e] eqn:Hd; cbn [bind] in Hrun; [|discriminate].
    eapply truediv_Ok; eauto.
Qed.

Lemma build_Ok_distinct (args res : list Q) (sp : list Spline) :
  (1 <= length args <= length res)%nat ->
  build args res (Z.of_nat (length args)) = Ok sp ->
  distinct_neighbours args.
Proof.
  intros Hlen Hrun. unfold build in Hrun.
  destruct (initial_splines args res _) as [sp0|e] eqn:H0;
    cbn [bind] in Hrun; [|discriminate].
  destruct (solve_equations_system res _ sp0) as [sp1|e] eqn:H1;
    cbn [bind] in Hrun; [|discriminate].
  assert (Hi0 : inv args res sp0).
  { apply fresh_inv.
    apply (outcome_of_Ok _ (initial_splines args res (Z.of_nat (length args))));
      [|exact H0].
    apply initial_splines_fresh, Hlen. }
  assert (Hi1 : inv args res sp1).
  { apply (outcome_of_Ok _ (solve_equations_system res (Z.of_nat (length args)) sp0));
      [|exact H1].
    apply solve_equations_system_outcome; auto. lia. }
  destruct (for_each_rounds (inv args res)
              (fun i => forall p q,
                   args !! (Z.to_nat i - 1)%nat = Some p ->
                   args !! Z.to_nat i = Some q -> ~ (p == q)%Q)
              (range_down (Z.of_nat (length args) - 1) 0) (sweep_step res))
    with (st := sp1) (st' := sp) as [_ Hall]; auto.
  - intros i st st' Hi Hst Hb. apply in_range_down in Hi.
    rewrite <- (Z2Nat.id i) in Hb by lia.
    apply (sweep_step_Ok args res st st' (Z.to_nat i)); auto. lia.
  - apply distinct_neighbours_intro. intros k p q Hp Hq.
    assert (Hk : (S k < length args)%nat) by (eapply lookup_lt_Some; eauto).
    specialize (Hall (Z.of_nat (S k))).
    rewrite Nat2Z.id in Hall. apply Hall.
    + apply in_range_down. lia.
    + replace (S k - 1)%nat with k by lia. exact Hp.
    + exact Hq.
Qed.

Lemma build_raises_IndexError (args res : list Q) :
  (length args = 0 \/ length res < length args)%nat ->
  build args res (Z.of_nat (length args)) = Raise IndexError.
Proof.
  intros H. unfold build.
  pose proof (initial_splines_raises args res) as Hout.
  destruct (initial_splines args res _) as [sp|e]; cbn [outcome bind] in *.
  - lia.
  - now subst e.
Qed.

(** C2, as the program has it.  [build] validates nothing.  It raises
    [IndexError] exactly when there is no sample or there are fewer
    results than arguments; otherwise it raises [ZeroDivisionError]
    exactly when two neighbouring arguments are equal; otherwise it
    returns one record per argument: one sample alone, results beyond the
    last argument and arguments that are not ascending are accepted. *)
Theorem build_failures (args res : list Q) :
  (build args res (Z.of_nat (length args)) = Raise IndexError <->
   (length args = 0 \/ length res < length args)%nat) /\
  (build args res (Z.of_nat (length args)) = Raise ZeroDivisionError <->
   (1 <= length args <= length res)%nat /\ ~ distinct_neighbours args) /\
  ((exists sp, build args res (Z.of_nat (length args)) = Ok sp /\
               length sp = length args) <->
   (1 <= length args <= length res)%nat /\ distinct_neighbours args).
Proof.
  assert (Hidx : (length args = 0 \/ length res < length args)%nat ->
    (@Raise (list Spline) IndexError = Raise IndexError <->
     (length args = 0 \/ length res < length args)%nat) /\
    (@Raise (list Spline) IndexError = Raise ZeroDivisionError <->
     (1 <= length args <= length res)%nat /\ ~ distinct_neighbours args) /\
    ((exists sp : list Spline,
        Raise IndexError = Ok sp /\ length sp = length args) <->
     (1 <= length args <= length res)%nat /\ distinct_neighbours args)).
  { intros H. split; [|split].
    - split; auto.
    - split; [discriminate|intros [? _]; lia].
    - split; [intros (sp & Hsp & _); discriminate|intros [? _]; lia]. }
  destruct (Nat.eq_dec (length args) 0) as [H0|H0];
    [|destruct (Nat.le_gt_cases (length args) (length res)) as [Hle|Hgt]].
  - rewrite (build_raises_IndexError args res) by lia. apply Hidx. lia.
  - assert (Hlen : (1 <= length args <= length res)%nat) by lia.
    destruct (distinct_neighbours_dec args) as [Hd|Hd].
    + destruct (outcome_Ok _ (fun _ => False) _
                  (build_outcome args res _ (or_intror Hd) Hlen))
        as (sp & Hsp & Hinv); [auto|].
      rewrite Hsp. split; [|split].
      * split; [discriminate|lia].
      * split; [discriminate|intros [_ Hn]; contradiction].
      * split; [intros _; split; assumption|].
        intros _. exists sp. split; [reflexivity|]. eapply inv_length, Hinv.
    + pose proof (build_outcome args res (eq ZeroDivisionError)
                    (or_introl eq_refl) Hlen) as Hout.
      destruct (build args res (Z.of_nat (length args))) as [sp|e] eqn:Hb;
        cbn [outcome] in Hout.
      * destruct Hd. eapply build_Ok_distinct; eauto.
      * subst e. split; [|split].
        -- split; [discriminate|lia].
        -- split; [intros _; split; assumption|reflexivity].
        -- split; [intros (sp & Hsp & _); discriminate|].
           intros [_ Hdd]. contradiction.
  - rewrite (build_raises_IndexError args res) by lia. apply Hidx. lia.
Qed.

(** C2, as stated, fails: one sample alone, a result too many and
    descending arguments are none of them valid, and the constructor
    completes on each. *)
Lemma invalid_input_accepted :
  (~ valid_input [0]%Q [5]%Q /\
   exists self, __init__ [0]%Q [5]%Q [] = Ok self) /\
  (~ valid_input [0; 1]%Q [0; 1; 7]%Q /\
   exists self, __init__ [0; 1]%Q [0; 1; 7]%Q [] = Ok self) /\
  (~ valid_input [0; 3; 1]%Q [0; 1; 0]%Q /\
   exists self, __init__ [0; 3; 1]%Q [0; 1; 0]%Q [] = Ok self).
Proof.
  repeat split.
  - intros (_ & H & _). simpl in H. lia.
  - eexists. vm_compute. reflexivity.
  - intros (H & _). discriminate.
  - eexists. vm_compute. reflexivity.
  - intros (_ & _ & _ & H & _). vm_compute in H. discriminate.
  - eexists. vm_compute. reflexivity.
Qed.

(** ** More of [build], [interpolate] and the constructor *)

(** X6.  Whatever [build] returns has one record per argument, and record
    [k] carries the sample [k]: [a] is [results[k]] and [x] is
    [function_arguments[k]]. *)
Theorem build_carries_samples (args res : list Q) (sp : list Spline) :
  build args res (Z.of_nat (length args)) = Ok sp ->
  length sp = length args /\
  forall k, (k < length args)%nat ->
    exists s r p, sp !! k = Some s /\ res !! k = Some r /\
                  args !! k = Some p /\ a s = Finite r /\ x s = Finite p.
Proof.
  intros Hb.
  assert (Hlen : (1 <= length args <= length res)%nat).
  { pose proof (initial_splines_raises args res) as Hout. unfold build in Hb.
    destruct (initial_splines args res _) as [sp0|e]; [exact Hout|discriminate]. }
  assert (Hinv : inv args res sp).
  { apply (outcome_of_Ok _ (build args res (Z.of_nat (length args)))); [|exact Hb].
    apply build_outcome; [left; exact I|exact Hlen]. }
  split; [eapply inv_length; eauto|].
  intros k Hk. destruct Hinv as ((Hl & Hks) & _).
  destruct (lookup_lt_is_Some_2 sp k) as [s Hs]; [lia|].
  destruct (Hks k s Hs) as (r & p & Hr & Hp & Ha & Hx).
  exists s, r, p. auto.
Qed.

Lemma build_carries_samples_witness :
  exists sp,
    build [0; 3; 1]%Q [4; 5; 6]%Q 3 = Ok sp /\ length sp = 3%nat /\
    exists s, sp !! 1%nat = Some s /\ a s = Finite 5 /\ x s = Finite 3.
Proof.
  eexists. split; [vm_compute; reflexivity|].
  match goal with
  | |- length ?sp = _ /\ _ =>
      destruct (build_carries_samples [0; 3; 1]%Q [4; 5; 6]%Q sp)
        as [Hl Hk]; [vm_compute; reflexivity|]
  end.
  split; [exact Hl|].
  destruct (Hk 1%nat) as (s & r & p & Hs & Hr & Hp & Ha & Hx); [simpl; lia|].
  injection Hr as <-. injection Hp as <-. exists s. auto.
Defined.

Lemma bisect_left_segment (a : list Q) (i : nat) (p' p q : Q) :
  nondecreasing a -> a !! i = Some p' -> a !! S i = Some p ->
  (p' < q <= p)%Q -> bisect_left a q = S i.
Proof.
  intros Hs Hi HSi [Hlo Hhi].
  apply (lower_bound_unique a q); [apply bisect_left_spec, Hs|].
  split; [apply lookup_lt_Some in HSi; lia|]. split.
  - intros j v Hj Hv. apply Qle_lt_trans with p'; [|exact Hlo].
    apply (nondecreasing_lookup a j i); auto. lia.
  - intros j v Hj Hv. apply Qle_trans with p; [exact Hhi|].
    apply (nondecreasing_lookup a (S i) j); auto.
Qed.



Lemma interpolate_raises (args : list Q) (sp : list Spline) (q : Q) :
  outcome (fun _ => True) (eq IndexError) (interpolate args sp q).
Proof.
  unfold interpolate.
  apply outcome_bind with (fun _ => True); [apply getitem_raises|].
  intros s _. exact I.
Qed.

Lemma interpolate_in_range (args res : list Q) (sp : list Spline)
    (last_knot q : Q) :
  nondecreasing args -> length sp = length args -> (1 <= length args)%nat ->
  last args = Some last_knot -> (q <= last_knot)%Q ->
  exists v, interpolate args sp q = Ok v.
Proof.
  intros Hs Hsp H1 Hl Hq.
  destruct (bisect_left_spec args q Hs) as (Hle & Hlt & _).
  assert (Hr : (bisect_left args q < length args)%nat).
  { destruct (Nat.eq_dec (bisect_left args q) (length args)) as [Heq|]; [|lia].
    exfalso. rewrite last_lookup in Hl.
    assert (Hp : (last_knot < q)%Q).
    { apply (Hlt (Init.Nat.pred (length args))); [lia|exact Hl]. }
    lra. }
  destruct (lookup_lt_is_Some_2 sp (bisect_left args q)) as [s Hsq]; [lia|].
  unfold interpolate. rewrite (getitem_lookup sp _ s Hsq). cbn [bind]. eauto.
Qed.





(** ** The rounds of the sweeps, exactly *)

Lemma range_S (j n : nat) :
  (j < n)%nat ->
  range (Z.of_nat j) (Z.of_nat n) = Z.of_nat j :: range (Z.of_nat (S j)) (Z.of_nat n).
Proof.
  intros Hj. unfold range.
  replace (Z.to_nat (Z.of_nat n - Z.of_nat j)) with (S (n - S j)) by lia.
  replace (Z.to_nat (Z.of_nat n - Z.of_nat (S j))) with (n - S j)%nat by lia.
  change (seq 0 (S (n - S j))) with (0%nat :: seq 1 (n - S j)).
  rewrite <- seq_shift, map_cons, map_map. f_equal; [lia|].
  apply map_ext. intros k. lia.
Qed.

Lemma Qeq_bool_minus (p q : Q) : ~ (p == q)%Q -> Qeq_bool (q - p) 0 = false.
Proof.
  intros H. apply not_true_is_false. intros Hz. apply Qeq_bool_eq in Hz.
  apply H. lra.
Qed.

Lemma fsub_Finite (p q : Q) : fsub (Finite p) (Finite q) = Finite (p - q).
Proof. reflexivity. Qed.

Section Rounds.

Variable args res : list Q.
Hypothesis Hdist : distinct_neighbours args.

Lemma knot_lookup (k : nat) (p : Q) : args !! k = Some p -> knot args k = p.
Proof. intros H. unfold knot. now apply nth_lookup_Some. Qed.

Lemma sample_lookup (k : nat) (r : Q) : res !! k = Some r -> sample res k = r.
Proof. intros H. unfold sample. now apply nth_lookup_Some. Qed.

Lemma seg_nonzero (k : nat) :
  (1 <= k < length args)%nat -> Qeq_bool (seg args k) 0 = false.
Proof.
  intros Hk.
  destruct (lookup_lt_is_Some_2 args k) as [q Hq]; [lia|].
  destruct (lookup_lt_is_Some_2 args (k - 1)) as [p Hp]; [lia|].
  unfold seg. rewrite (knot_lookup k q Hq), (knot_lookup (k - 1) p Hp).
  apply Qeq_bool_minus.
  apply (distinct_neighbours_lookup args (k - 1) p q Hdist Hp).
  replace (S (k - 1)) with k by lia. exact Hq.
Qed.

Lemma forward_step_eq (sp : list Spline) (alpha beta : list float) (k : nat)
    (ap bp : float) :
  inv args res sp -> (1 <= k < length args - 1)%nat ->
  alpha !! (k - 1)%nat = Some ap -> beta !! (k - 1)%nat = Some bp ->
  (k < length alpha)%nat -> (k < length beta)%nat ->
  forward_step res sp (Z.of_nat k) (alpha, beta)
  = Ok (<[k := new_alpha (seg args k) (seg args (k + 1)) ap]> alpha,
        <[k := new_beta (seg args k) (seg args (k + 1)) (rhs args res k) ap bp]>
          beta).
Proof.
  intros Hinv Hk Hap Hbp Hla Hlb.
  pose proof (seg_nonzero k ltac:(lia)) as Hz.
  pose proof (seg_nonzero (k + 1) ltac:(lia)) as Hz'.
  unfold rhs, seg in *. replace (k + 1 - 1)%nat with k in * by lia.
  unfold forward_step.
  replace (Z.of_nat k - 1)%Z with (Z.of_nat (k - 1)) by lia.
  replace (Z.of_nat k + 1)%Z with (Z.of_nat (k + 1)) by lia.
  pose proof (inv_length _ _ sp Hinv) as Hlen.
  destruct (lookup_lt_is_Some_2 sp k) as [s_i Hsi]; [lia|].
  destruct (lookup_lt_is_Some_2 sp (k - 1)) as [s_prev Hsp]; [lia|].
  destruct (lookup_lt_is_Some_2 sp (k + 1)) as [s_next Hsn]; [lia|].
  rewrite (getitem_lookup sp k s_i Hsi). cbn [bind].
  rewrite (getitem_lookup sp (k - 1) s_prev Hsp). cbn [bind].
  rewrite (getitem_lookup sp (k + 1) s_next Hsn). cbn [bind].
  destruct (inv_x _ _ sp k s_i Hinv Hsi) as (q & Hq & ->).
  destruct (inv_x _ _ sp (k - 1) s_prev Hinv Hsp) as (p & Hp & ->).
  destruct (inv_x _ _ sp (k + 1) s_next Hinv Hsn) as (q' & Hq' & ->).
  destruct (inv_res _ _ sp k Hinv) as [r_i Hri]; [lia|].
  destruct (inv_res _ _ sp (k - 1) Hinv) as [r_prev Hrp]; [lia|].
  destruct (inv_res _ _ sp (k + 1) Hinv) as [r_next Hrn]; [lia|].
  rewrite (knot_lookup _ _ Hq), (knot_lookup _ _ Hp), (knot_lookup _ _ Hq')
    in *.
  rewrite (sample_lookup _ _ Hri), (sample_lookup _ _ Hrp),
    (sample_lookup _ _ Hrn).
  rewrite (result_at_lookup res (k + 1) r_next Hrn). cbn [bind].
  rewrite (result_at_lookup res k r_i Hri). cbn [bind].
  rewrite (result_at_lookup res (k - 1) r_prev Hrp). cbn [bind].
  rewrite !fsub_Finite, !truediv_cases, Hz, Hz'. cbn [bind].
  rewrite (getitem_lookup alpha (k - 1) ap Hap). cbn [bind].
  unfold setitem.
  destruct (lookup_lt_is_Some_2 alpha k Hla) as [a_old Ha_old].
  destruct (lookup_lt_is_Some_2 beta k Hlb) as [b_old Hb_old].
  rewrite (setattr_lookup alpha k a_old _ Ha_old). cbn [bind].
  rewrite (getitem_lookup beta (k - 1) bp Hbp). cbn [bind].
  rewrite (setattr_lookup beta k b_old _ Hb_old). cbn [bind].
  unfold np_truediv at 3 4. rewrite Hz, Hz'. reflexivity.
Qed.

Lemma backward_step_eq (alpha beta : list float) (sp : list Spline) (k : nat)
    (ak bk : float) (s s' : Spline) :
  alpha !! k = Some ak -> beta !! k = Some bk ->
  sp !! k = Some s -> sp !! S k = Some s' ->
  backward_step alpha beta (Z.of_nat k) sp
  = Ok (<[k := set_c (fadd (fmul ak (c s')) bk) s]> sp).
Proof.
  intros Ha Hb Hs Hs'. unfold backward_step.
  replace (Z.of_nat k + 1)%Z with (Z.of_nat (S k)) by lia.
  rewrite (getitem_lookup alpha k ak Ha). cbn [bind].
  rewrite (getitem_lookup sp (S k) s' Hs'). cbn [bind].
  rewrite (getitem_lookup beta k bk Hb). cbn [bind].
  apply setattr_lookup, Hs.
Qed.

Lemma sweep_step_eq (sp : list Spline) (k : nat) (s t : Spline) :
  inv args res sp -> (1 <= k < length args)%nat ->
  sp !! k = Some s -> sp !! (k - 1)%nat = Some t ->
  sweep_step res (Z.of_nat k) sp
  = Ok (<[k := set_b (new_b s t (seg args k) (sample res k - sample res (k - 1)))
                (set_d (new_d s t (seg args k)) s)]> sp).
Proof.
  intros Hinv Hk Hs Ht.
  pose proof (seg_nonzero k Hk) as Hz. unfold seg in *.
  unfold sweep_step.
  replace (Z.of_nat k - 1)%Z with (Z.of_nat (k - 1)) by lia.
  pose proof (inv_length _ _ sp Hinv) as Hlen.
  rewrite (getitem_lookup sp k s Hs). cbn [bind].
  rewrite (getitem_lookup sp (k - 1) t Ht). cbn [bind].
  destruct (inv_x _ _ sp k s Hinv Hs) as (q & Hq & Hxq).
  destruct (inv_x _ _ sp (k - 1) t Hinv Ht) as (p & Hp & Hxp).
  destruct (inv_res _ _ sp k Hinv) as [r_i Hri]; [lia|].
  destruct (inv_res _ _ sp (k - 1) Hinv) as [r_prev Hrp]; [lia|].
  rewrite (knot_lookup _ _ Hq), (knot_lookup _ _ Hp) in *.
  rewrite (sample_lookup _ _ Hri), (sample_lookup _ _ Hrp).
  rewrite Hxq, Hxp, fsub_Finite, !truediv_cases, Hz.
  cbn [bind].
  rewrite (setattr_lookup sp k s _ Hs). cbn [bind].
  assert (Hk' : (k < length sp)%nat) by lia.
  rewrite (getitem_lookup _ k _ (list_lookup_insert_eq sp k _ Hk')).
  cbn [bind].
  assert (Ht' : <[k := set_d (np_truediv (fsub (c s) (c t)) (Finite (q - p)))
                         s]> sp !! (k - 1)%nat = Some t).
  { rewrite list_lookup_insert_ne by lia. exact Ht. }
  rewrite (getitem_lookup _ (k - 1) _ Ht'). cbn [bind].
  rewrite (result_at_lookup res k r_i Hri). cbn [bind].
  rewrite (result_at_lookup res (k - 1) r_prev Hrp). cbn [bind].
  rewrite fsub_Finite, truediv_cases, Hz. cbn [bind c set_d].
  rewrite (setattr_lookup _ k _ _ (list_lookup_insert_eq sp k _ Hk')).
  rewrite list_insert_insert_eq. reflexivity.
Qed.

End Rounds.

(** ** The sweeps as a whole *)

Lemma fmap_insert_same {A B : Type} (f : A -> B) (l : list A) (k : nat)
    (s : A) (upd : A -> A) :
  l !! k = Some s -> f (upd s) = f s -> f <$> <[k := upd s]> l = f <$> l.
Proof.
  intros Hs Hf. rewrite list_fmap_insert, Hf. apply list_insert_id.
  now rewrite list_lookup_fmap, Hs.
Qed.

Section Sweeps.

Variable args res : list Q.
Hypothesis Hdist : distinct_neighbours args.

Lemma forward_ok_insert (alpha beta : list float) (j k : nat) (u v : float) :
  (k < j)%nat -> forward_ok args res alpha beta k ->
  forward_ok args res (<[j := u]> alpha) (<[j := v]> beta) k.
Proof.
  intros Hk (ap & bp & Hap & Hbp & Ha & Hb). exists ap, bp.
  rewrite !list_lookup_insert_ne by lia. auto.
Qed.

Lemma forward_sweep_spec (sp : list Spline) :
  inv args res sp ->
  forall m j alpha beta,
    (j + m = length args - 1)%nat -> (1 <= j)%nat ->
    length alpha = (length args - 1)%nat ->
    length beta = (length args - 1)%nat ->
    alpha !! 0%nat = Some f0 -> beta !! 0%nat = Some f0 ->
    (forall k, (1 <= k < j)%nat -> forward_ok args res alpha beta k) ->
    exists alpha' beta',
      for_each (range (Z.of_nat j) (Z.of_nat (length args - 1)))
               (forward_step res sp) (alpha, beta) = Ok (alpha', beta') /\
      length alpha' = (length args - 1)%nat /\
      length beta' = (length args - 1)%nat /\
      alpha' !! 0%nat = Some f0 /\ beta' !! 0%nat = Some f0 /\
      forall k, (1 <= k < length args - 1)%nat ->
                forward_ok args res alpha' beta' k.
Proof.
  intros Hinv. induction m as [|m IH];
    intros j alpha beta Hjm Hj Hla Hlb Ha0 Hb0 Hok.
  - replace (length args - 1)%nat with j by lia.
    unfold range. replace (Z.to_nat (Z.of_nat j - Z.of_nat j)) with 0%nat by lia.
    cbn. exists alpha, beta. repeat split; auto; lia.
  - rewrite range_S by lia. cbn [for_each].
    destruct (lookup_lt_is_Some_2 alpha (j - 1)) as [ap Hap]; [lia|].
    destruct (lookup_lt_is_Some_2 beta (j - 1)) as [bp Hbp]; [lia|].
    rewrite (forward_step_eq args res Hdist sp alpha beta j ap bp)
      by (auto; lia).
    cbn [bind]. apply IH; try lia.
    + rewrite length_insert. exact Hla.
    + rewrite length_insert. exact Hlb.
    + rewrite list_lookup_insert_ne by lia. exact Ha0.
    + rewrite list_lookup_insert_ne by lia. exact Hb0.
    + intros k Hk. destruct (Nat.eq_dec k j) as [->|Hne].
      * exists ap, bp. rewrite !list_lookup_insert_ne by lia.
        rewrite !list_lookup_insert_eq by lia. auto.
      * apply forward_ok_insert; [lia|]. apply Hok. lia.
Qed.

Lemma backward_ok_insert (alpha beta : list float) (sp : list Spline)
    (j k : nat) (t : Spline) :
  (j < k)%nat -> backward_ok alpha beta sp k ->
  backward_ok alpha beta (<[j := t]> sp) k.
Proof.
  intros Hk (s & s' & ak & bk & Hs & Hs' & Ha & Hb & Hc).
  exists s, s', ak, bk. rewrite !list_lookup_insert_ne by lia. auto.
Qed.

Lemma backward_sweep_spec (alpha beta : list float) :
  length alpha = (length args - 1)%nat ->
  length beta = (length args - 1)%nat ->
  forall j sp,
    inv args res sp -> (j + 2 <= length args)%nat ->
    (forall k, (j < k)%nat -> (k + 2 <= length args)%nat ->
               backward_ok alpha beta sp k) ->
    exists sp',
      for_each (range_down (Z.of_nat j) 0) (backward_step alpha beta) sp
      = Ok sp' /\
      inv args res sp' /\
      (forall k, (1 <= k)%nat -> (k + 2 <= length args)%nat ->
                 backward_ok alpha beta sp' k) /\
      a <$> sp' = a <$> sp /\ b <$> sp' = b <$> sp /\
      d <$> sp' = d <$> sp /\ x <$> sp' = x <$> sp /\
      sp' !! 0%nat = sp !! 0%nat /\
      sp' !! (length args - 1)%nat = sp !! (length args - 1)%nat.
Proof.
  intros Hla Hlb. induction j as [|j IH]; intros sp Hinv Hj Hok.
  - cbn. exists sp. split; [reflexivity|]. split; [exact Hinv|].
    split; [intros k Hk Hk2; apply Hok; lia|]. auto 10.
  - rewrite range_down_S. cbn [for_each].
    pose proof (inv_length _ _ sp Hinv) as Hlen.
    destruct (lookup_lt_is_Some_2 alpha (S j)) as [ak Hak]; [lia|].
    destruct (lookup_lt_is_Some_2 beta (S j)) as [bk Hbk]; [lia|].
    destruct (lookup_lt_is_Some_2 sp (S j)) as [s Hs]; [lia|].
    destruct (lookup_lt_is_Some_2 sp (S (S j))) as [s' Hs']; [lia|].
    rewrite (backward_step_eq alpha beta sp (S j) ak bk s s' Hak Hbk Hs Hs').
    cbn [bind].
    destruct (IH (<[S j := set_c (fadd (fmul ak (c s')) bk) s]> sp))
      as (sp' & Hrun & Hinv' & Hok' & Hfa & Hfb & Hfd & Hfx & H0 & Hn).
    + apply inv_insert; auto; lia.
    + lia.
    + intros k Hk Hk2. destruct (Nat.eq_dec k (S j)) as [->|Hne].
      * exists (set_c (fadd (fmul ak (c s')) bk) s), s', ak, bk.
        rewrite list_lookup_insert_eq by lia.
        rewrite list_lookup_insert_ne by lia. auto.
      * apply backward_ok_insert; [lia|]. apply Hok; lia.
    + exists sp'. split; [exact Hrun|]. split; [exact Hinv'|].
      split; [exact Hok'|].
      rewrite Hfa, Hfb, Hfd, Hfx, H0, Hn.
      rewrite !(fmap_insert_same _ sp (S j) s (set_c _)) by auto.
      rewrite !list_lookup_insert_ne by lia. auto 10.
Qed.

Lemma sweep_frame (j : nat) :
  forall sp, inv args res sp -> (j < length args)%nat ->
  exists sp',
    for_each (range_down (Z.of_nat j) 0) (sweep_step res) sp = Ok sp' /\
    a <$> sp' = a <$> sp /\ c <$> sp' = c <$> sp /\ x <$> sp' = x <$> sp /\
    sp' !! 0%nat = sp !! 0%nat.
Proof.
  induction j as [|j IH]; intros sp Hinv Hj.
  - cbn. exists sp. auto.
  - rewrite range_down_S. cbn [for_each].
    pose proof (inv_length _ _ sp Hinv) as Hlen.
    destruct (lookup_lt_is_Some_2 sp (S j)) as [s Hs]; [lia|].
    destruct (lookup_lt_is_Some_2 sp (S j - 1)) as [t Ht]; [lia|].
    rewrite (sweep_step_eq args res Hdist sp (S j) s t) by (auto; lia).
    cbn [bind].
    destruct (IH (<[S j := set_b (new_b s t (seg args (S j))
                                    (sample res (S j) - sample res (S j - 1)))
                            (set_d (new_d s t (seg args (S j))) s)]> sp))
      as (sp' & Hrun & Hfa & Hfc & Hfx & H0).
    + apply (inv_insert args res sp (S j) s
               (fun u => set_b _ (set_d _ u))); auto. lia.
    + lia.
    + exists sp'. split; [exact Hrun|]. rewrite Hfa, Hfc, Hfx, H0.
      rewrite !(fmap_insert_same _ sp (S j) s
                  (fun u => set_b _ (set_d _ u))) by auto.
      rewrite list_lookup_insert_ne by lia. auto.
Qed.

End Sweeps.

Lemma backward_ok_same_c (alpha beta : list float) (sp sp' : list Spline)
    (k : nat) :
  c <$> sp' = c <$> sp -> backward_ok alpha beta sp k ->
  backward_ok alpha beta sp' k.
Proof.
  intros Hc (s & s' & ak & bk & Hs & Hs' & Ha & Hb & Heq).
  assert (Hk : forall j t, sp !! j = Some t ->
                 exists t', sp' !! j = Some t' /\ c t' = c t).
  { intros j t Ht.
    assert (H : (c <$> sp') !! j = Some (c t))
      by (rewrite Hc, list_lookup_fmap, Ht; reflexivity).
    rewrite list_lookup_fmap in H.
    destruct (sp' !! j) as [t'|]; [|discriminate].
    injection H as H. eauto. }
  destruct (Hk _ _ Hs) as (t & Ht & Hct).
  destruct (Hk _ _ Hs') as (t' & Ht' & Hct').
  exists t, t', ak, bk. rewrite Hct, Hct'. auto.
Qed.

(** The whole of [build] on valid input: the three stages complete, and
    the records returned satisfy the equations of every round of the
    three loops. *)
Lemma build_solved (args res : list Q) :
  valid_input args res ->
  exists sp0 sp1 sp alpha beta,
    initial_splines args res (Z.of_nat (length args)) = Ok sp0 /\
    solve_equations_system res (Z.of_nat (length args)) sp0 = Ok sp1 /\
    for_each (range_down (Z.of_nat (length args) - 1) 0) (sweep_step res) sp1
      = Ok sp /\
    build args res (Z.of_nat (length args)) = Ok sp /\
    inv args res sp /\
    alpha !! 0%nat = Some f0 /\ beta !! 0%nat = Some f0 /\
    (forall k, (1 <= k)%nat -> (k + 2 <= length args)%nat ->
       forward_ok args res alpha beta k /\ backward_ok alpha beta sp k) /\
    (forall k, (1 <= k < length args)%nat -> derived args res sp k) /\
    (a <$> sp1 = a <$> sp0 /\ b <$> sp1 = b <$> sp0 /\
     d <$> sp1 = d <$> sp0 /\ x <$> sp1 = x <$> sp0 /\
     sp1 !! 0%nat = sp0 !! 0%nat /\
     sp1 !! (length args - 1)%nat = sp0 !! (length args - 1)%nat) /\
    (a <$> sp = a <$> sp1 /\ c <$> sp = c <$> sp1 /\ x <$> sp = x <$> sp1 /\
     sp !! 0%nat = sp1 !! 0%nat).
Proof.
  intros Hv. pose proof Hv as (Hlen & H2 & Hasc).
  pose proof (ascending_distinct args Hasc) as Hd.
  destruct (build_stages args res Hv)
    as (sp0 & sp1 & sp & H0 & H1 & Hsw & Hb & Hi0 & Hi1 & Hi).
  destruct (forward_sweep_spec args res Hd sp0 Hi0 (length args - 2) 1
              (replicate (length args - 1) f0)
              (replicate (length args - 1) f0))
    as (alpha & beta & Hfw & Hla & Hlb & Ha0 & Hb0 & Hfok);
    try (rewrite ?length_replicate; lia);
    try (apply lookup_replicate_2; lia).
  destruct (backward_sweep_spec args res alpha beta Hla Hlb
              (length args - 2) sp0 Hi0)
    as (sp1' & Hbw & Hi1' & Hbok & Hf1); [lia| |].
  { intros k Hk Hk2. lia. }
  assert (sp1' = sp1).
  { unfold solve_equations_system, np_zeros in H1.
    destruct (Z.ltb_spec (Z.of_nat (length args) - 1) 0) as [Hneg|_]; [lia|].
    cbn [bind] in H1.
    replace (Z.to_nat (Z.of_nat (length args) - 1)) with (length args - 1)%nat
      in H1 by lia.
    change (Z.of_nat 1) with 1%Z in Hfw.
    replace (Z.of_nat (length args) - 1)%Z
      with (Z.of_nat (length args - 1)) in H1 by lia.
    rewrite Hfw in H1. cbn [bind fst snd] in H1.
    replace (Z.of_nat (length args) - 2)%Z
      with (Z.of_nat (length args - 2)) in H1 by lia.
    congruence. }
  subst sp1'.
  destruct (sweep_frame args res Hd (length args - 1) sp1 Hi1)
    as (sp' & Hsw' & Hf2); [lia|].
  assert (sp' = sp).
  { replace (Z.of_nat (length args - 1)) with (Z.of_nat (length args) - 1)%Z
      in Hsw' by lia. congruence. }
  subst sp'.
  destruct (build_derived args res Hv) as (sp_ & Hb_ & _ & Hder).
  assert (sp_ = sp) by congruence. subst sp_.
  exists sp0, sp1, sp, alpha, beta.
  repeat (split; [assumption|]).
  split; [|split; [exact Hder|split; [exact Hf1|exact Hf2]]].
  intros k Hk Hk2. split; [apply Hfok; lia|].
  apply (backward_ok_same_c alpha beta sp1 sp); [apply Hf2|].
  apply Hbok; lia.
Qed.

(** ** The linear system that [solve_equations_system] solves *)

Lemma knot_equation (args res : list Q) (sp : list Spline)
    (alpha beta : list float) (i : nat) (sprev s sn : Spline) (gp g gn : Q) :
  inv args res sp ->
  alpha !! 0%nat = Some f0 -> beta !! 0%nat = Some f0 ->
  (1 <= i)%nat ->
  forward_ok args res alpha beta i -> backward_ok alpha beta sp i ->
  ((2 <= i)%nat -> backward_ok alpha beta sp (i - 1)) ->
  sp !! (i - 1)%nat = Some sprev -> sp !! i = Some s -> sp !! S i = Some sn ->
  c sprev = Finite gp -> c s = Finite g -> c sn = Finite gn ->
  (seg args i * gp + 2 * seg args i * (1 + seg args (i + 1)) * g
   + seg args (i + 1) * gn == rhs args res i)%Q.
Proof.
  intros Hinv Ha0 Hb0 Hi (ap & bp & Hap & Hbp & Ha & Hb)
    (s_ & sn_ & ak & bk & Hs_ & Hsn_ & Hak & Hbk & Hc) Hprev
    Hsprev Hs Hsn Hgp Hg Hgn.
  assert (s_ = s) by congruence. assert (sn_ = sn) by congruence.
  assert (ak = new_alpha (seg args i) (seg args (i + 1)) ap) by congruence.
  assert (bk = new_beta (seg args i) (seg args (i + 1)) (rhs args res i) ap bp)
    by congruence.
  subst s_ sn_ ak bk. rewrite Hg, Hgn in Hc.
  set (h := seg args i) in *. set (h' := seg args (i + 1)) in *.
  set (F := rhs args res i) in *.
  unfold new_alpha, new_beta, pivot in Hc.
  destruct ap as [Ap|]; [|cbn in Hc; discriminate].
  cbn [fadd fmul fsub fneg lift2 np_truediv f1 f2] in Hc.
  destruct (Qeq_bool (h * (Ap + 2 * (1 + h'))) 0) eqn:Hz; [discriminate|].
  destruct bp as [Bp|]; [|discriminate].
  cbn [fadd fmul fsub lift2 np_truediv] in Hc. rewrite Hz in Hc.
  cbn [fadd lift2] in Hc. injection Hc as Hc.
  assert (HP : ~ (h * (Ap + 2 * (1 + h')) == 0)%Q) by (apply Qeq_bool_neq, Hz).
  assert (Hrel : (gp == Ap * g + Bp)%Q).
  { destruct (Nat.eq_dec i 1) as [->|Hne].
    - destruct Hinv as (_ & Hf & _). change (1 - 1)%nat with 0%nat in *.
      destruct (Hf _ Hsprev) as (_ & Hc0 & _).
      unfold f0 in *.
      assert (gp = 0%Q) by congruence.
      assert (Ap = 0%Q) by congruence. assert (Bp = 0%Q) by congruence.
      subst. ring.
    - destruct Hprev as (t & t' & ak & bk & Ht & Ht' & Hak' & Hbk' & Hc');
        [lia|].
      replace (S (i - 1)) with i in Ht' by lia.
      assert (t = sprev) by congruence. assert (t' = s) by congruence.
      assert (ak = Finite Ap) by congruence.
      assert (bk = Finite Bp) by congruence. subst t t' ak bk.
      rewrite Hgp, Hg in Hc'. cbn in Hc'. injection Hc' as ->. reflexivity. }
  rewrite Hrel, Hc. field.
  split; intros Hx; apply HP; rewrite Hx; ring.
Qed.



Lemma cubic_d1_finite (s : Spline) (be ga de t : Q) :
  b s = Finite be -> c s = Finite ga -> d s = Finite de ->
  cubic_d1 s (Finite t) = Finite (be + ga * t + de * t ^ 2 / 2).
Proof. intros Hb Hc Hd. unfold cubic_d1. rewrite Hb, Hc, Hd. reflexivity. Qed.

Lemma derived_values (args res : list Q) (sp : list Spline) (k : nat)
    (s t : Spline) (g gt : Q) :
  distinct_neighbours args -> (1 <= k < length args)%nat ->
  derived args res sp k ->
  sp !! k = Some s -> sp !! (k - 1)%nat = Some t ->
  c s = Finite g -> c t = Finite gt ->
  ~ (seg args k == 0)%Q /\
  d s = Finite ((g - gt) / seg args k) /\
  b s = Finite (seg args k * (2 * g + gt) / 6
                + (sample res k - sample res (k - 1)) / seg args k).
Proof.
  intros Hd Hk (s_ & t_ & p & q & r & r' & Hs_ & Ht_ & Hp & Hq & Hr' & Hr & Hdd & Hbb)
    Hs Ht Hg Hgt.
  assert (s_ = s) by congruence. assert (t_ = t) by congruence. subst s_ t_.
  pose proof (seg_nonzero args Hd k Hk) as Hz.
  unfold seg in *.
  rewrite (knot_lookup args k q Hq), (knot_lookup args (k - 1) p Hp) in *.
  rewrite (sample_lookup res k r Hr), (sample_lookup res (k - 1) r' Hr').
  rewrite Hg, Hgt in Hdd, Hbb.
  cbn [fsub fadd fmul lift2 np_truediv f2 f6] in Hdd, Hbb.
  rewrite Hz in Hdd, Hbb. change (Qeq_bool 6 0) with false in Hbb.
  split; [apply Qeq_bool_neq, Hz|]. split; assumption.
Qed.

Lemma d1_gap (args res : list Q) (sp : list Spline)
    (i : nat) (sprev s sn : Spline) (gp g gn : Q) :
  valid_input args res ->
  build args res (Z.of_nat (length args)) = Ok sp ->
  (1 <= i)%nat ->
  sp !! (i - 1)%nat = Some sprev -> sp !! i = Some s -> sp !! S i = Some sn ->
  c sprev = Finite gp -> c s = Finite g -> c sn = Finite gn ->
  exists L R,
    cubic_d1 s f0 = Finite L /\
    cubic_d1 sn (fsub (x s) (x sn)) = Finite R /\
    (L - R == seg args (i + 1) * (1 - seg args i) * g / 3)%Q /\
    ~ (seg args (i + 1) == 0)%Q.
Proof.
  intros Hv Hb Hi Hsprev Hs Hsn Hgp Hg Hgn.
  pose proof Hv as (Hlen & H2 & Hasc).
  pose proof (ascending_distinct args Hasc) as Hd.
  destruct (build_solved args res Hv)
    as (sp0 & sp1 & sp_ & alpha & beta & _ & _ & _ & Hb_ & Hinv & Ha0 & Hb0
        & Hok & Hder & _).
  assert (sp_ = sp) by congruence. subst sp_.
  pose proof (inv_length _ _ _ Hinv) as Hsp.
  assert (HSi : (S i < length args)%nat)
    by (apply lookup_lt_Some in Hsn; lia).
  assert (Heq : (seg args i * gp + 2 * seg args i * (1 + seg args (i + 1)) * g
                 + seg args (i + 1) * gn == rhs args res i)%Q).
  { apply (knot_equation args res sp alpha beta i sprev s sn); auto.
    - apply Hok; lia.
    - apply Hok; lia.
    - intros Hi2. apply Hok; lia. }
  destruct (derived_values args res sp i s sprev g gp Hd)
    as (Hh & Hds & Hbs); auto; [lia|apply Hder; lia|].
  assert (Hs' : sp !! (S i - 1)%nat = Some s)
    by (replace (S i - 1)%nat with i by lia; exact Hs).
  destruct (derived_values args res sp (S i) sn s gn g Hd)
    as (Hh' & Hdn & Hbn); auto; try lia; try (apply Hder; lia).
  clear Hs'. replace (S i - 1)%nat with i in * by lia.
  replace (S i) with (i + 1)%nat in * by lia.
  destruct (inv_x _ _ sp i s Hinv Hs) as (q & Hq & Hxs).
  destruct (inv_x _ _ sp (i + 1) sn Hinv Hsn) as (q' & Hq' & Hxn).
  rewrite Hxs, Hxn, fsub_Finite. unfold f0.
  rewrite (cubic_d1_finite s _ _ _ 0 Hbs Hg Hds).
  rewrite (cubic_d1_finite sn _ _ _ (q - q') Hbn Hgn Hdn).
  eexists _, _. split; [reflexivity|]. split; [reflexivity|].
  assert (Hqq : (q - q' == - seg args (i + 1))%Q).
  { unfold seg. replace (i + 1 - 1)%nat with i by lia.
    rewrite (knot_lookup args i q Hq), (knot_lookup args (i + 1) q' Hq').
    ring. }
  unfold rhs in Heq.
  set (h := seg args i) in *. set (h' := seg args (i + 1)) in *.
  set (dy := (sample res i - sample res (i - 1))%Q) in *.
  set (dy' := (sample res (i + 1) - sample res i)%Q) in *.
  assert (Hgap :
    (h * (2 * g + gp) / 6 + dy / h + g * 0 + (g - gp) / h * 0 ^ 2 / 2
     - (h' * (2 * gn + g) / 6 + dy' / h' + gn * (q - q')
        + (gn - g) / h' * (q - q') ^ 2 / 2)
     == h' * (1 - h) * g / 3)%Q).
  { rewrite Hqq.
    setoid_replace (h' * (1 - h) * g / 3)%Q
      with (h' * (1 - h) * g / 3
            + (h * gp + 2 * h * (1 + h') * g + h' * gn
               - 6 * (dy' / h' - dy / h)) / 6)%Q
      using relation Qeq by (rewrite Heq; field; auto).
    field. auto. }
  split; [exact Hgap|exact Hh'].
Qed.



(** ** Knots one apart *)

Lemma seg_pos (args : list Q) (k : nat) :
  ascending args -> (1 <= k < length args)%nat -> (0 < seg args k)%Q.
Proof.
  intros Hasc Hk.
  destruct (lookup_lt_is_Some_2 args k) as [q Hq]; [lia|].
  destruct (lookup_lt_is_Some_2 args (k - 1)) as [p Hp]; [lia|].
  unfold seg. rewrite (knot_lookup args k q Hq), (knot_lookup args (k - 1) p Hp).
  assert ((p < q)%Q) by (apply (ascending_lookup args (k - 1) k); auto; lia).
  lra.
Qed.

Section UnitSpacing.

Variable args res : list Q.
Hypothesis Hasc : ascending args.
Hypothesis Hunit : unit_spaced args.

Variable alpha beta : list float.
Hypothesis Ha0 : alpha !! 0%nat = Some f0.
Hypothesis Hb0 : beta !! 0%nat = Some f0.
Hypothesis Hfw : forall k, (1 <= k)%nat -> (k + 2 <= length args)%nat ->
  forward_ok args res alpha beta k.

(** The pivots stay positive and [alpha] stays in (-1, 0]. *)
Lemma forward_bounds (k : nat) :
  (k + 2 <= length args)%nat ->
  exists A B, alpha !! k = Some (Finite A) /\ beta !! k = Some (Finite B) /\
              (-1 < A <= 0)%Q.
Proof.
  induction k as [|k IH]; intros Hk.
  - exists 0%Q, 0%Q. split; [exact Ha0|]. split; [exact Hb0|]. lra.
  - destruct IH as (A & B & HA & HB & HAb); [lia|].
    destruct (Hfw (S k)) as (ap & bp & Hap & Hbp & Ha & Hb); [lia|lia|].
    replace (S k - 1)%nat with k in * by lia.
    assert (ap = Finite A) by congruence. assert (bp = Finite B) by congruence.
    subst ap bp.
    pose proof (Hunit (S k) ltac:(lia) Hk) as Hh.
    pose proof (seg_pos args (S k + 1) Hasc ltac:(lia)) as Hh'.
    set (h := seg args (S k)) in *. set (h' := seg args (S k + 1)) in *.
    assert (HP : (0 < h * (A + 2 * (1 + h')))%Q).
    { rewrite Hh. lra. }
    assert (Hz : Qeq_bool (h * (A + 2 * (1 + h'))) 0 = false).
    { apply not_true_is_false. intros H. apply Qeq_bool_eq in H. lra. }
    unfold new_alpha, new_beta, pivot in Ha, Hb.
    cbn [fadd fmul fsub fneg lift2 np_truediv f1 f2] in Ha, Hb.
    rewrite Hz in Ha, Hb.
    eexists _, _. split; [exact Ha|]. split; [exact Hb|].
    split.
    + apply Qlt_shift_div_l; [exact HP|]. rewrite Hh. lra.
    + apply Qle_shift_div_r; [exact HP|]. lra.
Qed.

Variable sp : list Spline.
Hypothesis Hinv : inv args res sp.
Hypothesis Hbw : forall k, (1 <= k)%nat -> (k + 2 <= length args)%nat ->
  backward_ok alpha beta sp k.

Lemma c_finite_from (m : nat) :
  forall k s, (k + m + 1 = length args)%nat -> (1 <= k)%nat ->
              sp !! k = Some s -> is_finite (c s).
Proof.
  induction m as [|m IH]; intros k s Hk Hk1 Hs.
  - destruct Hinv as (_ & _ & Hl).
    replace k with (length args - 1)%nat in Hs by lia.
    rewrite (Hl s Hs). exact I.
  - destruct (Hbw k) as (s_ & s' & ak & bk & Hs_ & Hs' & Hak & Hbk & Hc);
      [lia|lia|].
    assert (s_ = s) by congruence. subst s_.
    destruct (forward_bounds k) as (A & B & HA & HB & _); [lia|].
    assert (ak = Finite A) by congruence. assert (bk = Finite B) by congruence.
    subst ak bk.
    pose proof (IH (S k) s' ltac:(lia) ltac:(lia) Hs') as Hfin.
    rewrite Hc. destruct (c s'); [exact I|destruct Hfin].
Qed.

Lemma c_finite (k : nat) (s : Spline) : sp !! k = Some s -> is_finite (c s).
Proof.
  intros Hs. destruct k as [|k].
  - destruct Hinv as (_ & Hf & _). destruct (Hf s Hs) as (_ & -> & _). exact I.
  - pose proof (lookup_lt_Some _ _ _ Hs) as Hlt.
    rewrite (inv_length _ _ _ Hinv) in Hlt.
    apply (c_finite_from (length args - S k - 1) (S k)); auto; lia.
Qed.

End UnitSpacing.

Lemma finite_value (u : float) : is_finite u -> exists q, u = Finite q.
Proof. destruct u as [q|]; [eauto|intros []]. Qed.



(** ** What the stages of [build] leave alone *)

(** X5.  On valid input [solve_equations_system] writes nothing but the [c]
    of the inner records: [a], [b], [d] and [x] of every record and the
    whole of the first and of the last record are as before.  The last
    loop of [build] writes nothing but [b] and [d]: [a], [c] and [x] of
    every record and the whole of the first record are as before. *)
Theorem sweeps_write_only (args res : list Q) :
  valid_input args res ->
  exists sp0 sp1 sp,
    initial_splines args res (Z.of_nat (length args)) = Ok sp0 /\
    solve_equations_system res (Z.of_nat (length args)) sp0 = Ok sp1 /\
    for_each (range_down (Z.of_nat (length args) - 1) 0) (sweep_step res) sp1
      = Ok sp /\
    (a <$> sp1 = a <$> sp0 /\ b <$> sp1 = b <$> sp0 /\
     d <$> sp1 = d <$> sp0 /\ x <$> sp1 = x <$> sp0 /\
     head sp1 = head sp0 /\ last sp1 = last sp0) /\
    (a <$> sp = a <$> sp1 /\ c <$> sp = c <$> sp1 /\ x <$> sp = x <$> sp1 /\
     head sp = head sp1).
Proof.
  intros Hv.
  destruct (build_solved args res Hv)
    as (sp0 & sp1 & sp & alpha & beta & H0 & H1 & Hsw & _ & _ & _ & _ & _ & _
        & (Ha & Hb & Hd & Hx & Hh & Hl) & (Ha' & Hc' & Hx' & Hh')).
  exists sp0, sp1, sp. split; [exact H0|]. split; [exact H1|].
  split; [exact Hsw|].
  assert (Hlen : length sp1 = length sp0).
  { rewrite <- (length_fmap a sp1), Ha. apply length_fmap. }
  assert (Hlen0 : length sp0 = length args).
  { destruct (build_stages args res Hv)
      as (sp0' & _ & _ & H0' & _ & _ & _ & Hi0 & _).
    assert (sp0' = sp0) by congruence. subst sp0'.
    eapply inv_length, Hi0. }
  split.
  - rewrite !head_lookup, !last_lookup, Hlen, Hlen0.
    replace (Init.Nat.pred (length args)) with (length args - 1)%nat by lia.
    auto 10.
  - rewrite !head_lookup. auto.
Qed.

Lemma sweeps_write_only_witness :
  valid_input [0; 1; 2; 3]%Q [0; 1; 0; 1]%Q /\
  exists sp0 sp,
    initial_splines [0; 1; 2; 3]%Q [0; 1; 0; 1]%Q 4 = Ok sp0 /\
    build [0; 1; 2; 3]%Q [0; 1; 0; 1]%Q 4 = Ok sp /\
    a <$> sp = a <$> sp0 /\ x <$> sp = x <$> sp0 /\ head sp = head sp0.
Proof.
  assert (Hv : valid_input [0; 1; 2; 3]%Q [0; 1; 0; 1]%Q).
  { split; [reflexivity|]. split; [simpl; lia|].
    simpl. repeat split; reflexivity. }
  split; [exact Hv|].
  destruct (sweeps_write_only [0; 1; 2; 3]%Q [0; 1; 0; 1]%Q Hv)
    as (sp0 & sp1 & sp & H0 & H1 & Hsw & (Ha & _ & _ & Hx & Hh & _)
        & (Ha' & _ & Hx' & Hh')).
  exists sp0, sp. split; [exact H0|]. split.
  - change 4%Z with (Z.of_nat (length [0; 1; 2; 3]%Q)).
    unfold build. rewrite H0. cbn [bind]. rewrite H1. cbn [bind]. exact Hsw.
  - rewrite Ha', Ha, Hx', Hx, Hh', Hh. auto.
Defined.

(** ** Results beyond the last argument *)

Lemma comprehension_ext {A B : Type} (f g : A -> result B) (idx : list A) :
  (forall i, In i idx -> f i = g i) -> comprehension f idx = comprehension g idx.
Proof.
  induction idx as [|i idx IH]; intros H; simpl; [reflexivity|].
  rewrite (H i) by now left. rewrite IH; [reflexivity|].
  intros j Hj. apply H. now right.
Qed.

Lemma for_each_ext {S : Type} (f g : Z -> S -> result S) (idx : list Z) :
  (forall i st, In i idx -> f i st = g i st) ->
  forall st, for_each idx f st = for_each idx g st.
Proof.
  induction idx as [|i idx IH]; intros H st; simpl; [reflexivity|].
  rewrite (H i st) by now left. destruct (g i st) as [st'|e]; simpl; auto.
  apply IH. intros j st'' Hj. apply H. now right.
Qed.

Lemma getitem_take {A : Type} (l : list A) (n : nat) (i : Z) :
  (0 <= i < Z.of_nat n)%Z -> getitem (take n l) i = getitem l i.
Proof.
  intros Hi. destruct (Nat.le_gt_cases (length l) n) as [Hle|Hgt].
  - now rewrite take_ge.
  - rewrite <- (Z2Nat.id i) by lia. unfold getitem.
    rewrite length_take_le by lia.
    rewrite !norm_index_of_nat by lia.
    rewrite lookup_take_lt by lia. reflexivity.
Qed.

Lemma result_at_take (res : list Q) (n : nat) (i : Z) :
  (0 <= i < Z.of_nat n)%Z -> result_at (take n res) i = result_at res i.
Proof. intros Hi. unfold result_at. now rewrite getitem_take. Qed.

(** X7.  [build] reads as many results as there are arguments: the results
    beyond are ignored, whatever the input. *)
Theorem build_ignores_surplus_results (args res : list Q) :
  build args (take (length args) res) (Z.of_nat (length args))
  = build args res (Z.of_nat (length args)).
Proof.
  unfold build.
  assert (H0 : initial_splines args (take (length args) res)
                 (Z.of_nat (length args))
               = initial_splines args res (Z.of_nat (length args))).
  { unfold initial_splines. f_equal. apply comprehension_ext.
    intros i Hi. apply in_range in Hi. now rewrite getitem_take. }
  rewrite H0.
  destruct (initial_splines args res (Z.of_nat (length args))) as [sp0|e];
    cbn [bind]; [|reflexivity].
  assert (H1 : solve_equations_system (take (length args) res)
                 (Z.of_nat (length args)) sp0
               = solve_equations_system res (Z.of_nat (length args)) sp0).
  { unfold solve_equations_system.
    destruct (np_zeros (Z.of_nat (length args) - 1)) as [z|e]; cbn [bind];
      [|reflexivity].
    f_equal. apply for_each_ext. intros i [alpha beta] Hi.
    apply in_range in Hi. unfold forward_step.
    rewrite !result_at_take by lia. reflexivity. }
  rewrite H1.
  destruct (solve_equations_system res (Z.of_nat (length args)) sp0)
    as [sp1|e]; cbn [bind]; [|reflexivity].
  apply for_each_ext. intros i sp Hi. apply in_range_down in Hi.
  unfold sweep_step. rewrite !result_at_take by lia. reflexivity.
Qed.

(** ** The error metric *)

Lemma comprehension_map {A B : Type} (f : A -> result B) (g : A -> B)
    (idx : list A) :
  (forall i, f i = Ok (g i)) -> comprehension f idx = Ok (map g idx).
Proof.
  intros H. induction idx as [|i idx IH]; simpl; [reflexivity|].
  now rewrite H, IH.
Qed.

Lemma fold_fmax_spec (g : Q -> Q) (qs : list Q) :
  forall q0, exists q,
    In q (q0 :: qs) /\
    fold_left fmax (map (fun q => Finite (g q)) qs) (Finite (g q0))
    = Finite (g q) /\
    (g q0 <= g q)%Q /\ forall q', In q' qs -> (g q' <= g q)%Q.
Proof.
  induction qs as [|q1 qs IH]; intros q0.
  - exists q0. simpl. repeat split; auto using Qle_refl. intros q' [].
  - cbn [map fold_left fmax].
    destruct (Qlt_bool (g q0) (g q1)) eqn:Hc.
    + apply Qlt_bool_iff in Hc.
      destruct (IH q1) as (q & Hin & Hf & Hq1 & Hall).
      exists q. split; [right; exact Hin|]. split; [exact Hf|].
      split; [lra|]. intros q' [<-|Hq']; auto.
    + apply Qlt_bool_false in Hc.
      destruct (IH q0) as (q & Hin & Hf & Hq0 & Hall).
      exists q. split; [destruct Hin as [<-|Hin]; [now left|now right; right]|].
      split; [exact Hf|]. split; [exact Hq0|].
      intros q' [<-|Hq']; [lra|auto].
Qed.

(** X11.  What [get_interpolation_error] reports, for a true function with
    finite values and a finite first interpolated value: the largest
    value of the true function at a query, minus the first interpolated
    value.  No other interpolated value is read. *)
Theorem interpolation_error_value (self : CubicSplineInterpolator)
    (F : Q -> Q) (w q0 : Q) (qs : list Q) (rest : list float) :
  spline_arguments self = q0 :: qs ->
  interpolated_data self = Finite w :: rest ->
  exists q,
    In q (q0 :: qs) /\
    get_interpolation_error self (fun arg => Finite (F arg))
    = Ok (Finite (F q - w)) /\
    forall q', In q' (q0 :: qs) -> (F q' <= F q)%Q.
Proof.
  intros Hq Hd. unfold get_interpolation_error. rewrite Hq, Hd.
  rewrite (comprehension_map _ (fun arg => Finite (F arg - w)))
    by reflexivity.
  cbn [bind map py_max].
  destruct (fold_fmax_spec (fun q => (F q - w)%Q) qs q0)
    as (q & Hin & Hf & Hq0 & Hall).
  exists q. split; [exact Hin|]. split; [now rewrite Hf|].
  intros q' [<-|Hq']; [lra|]. specialize (Hall q' Hq'). simpl in Hall. lra.
Qed.

Lemma interpolation_error_value_witness :
  exists self q w rest,
    __init__ [0; 1]%Q [0; 1]%Q [0; 1]%Q = Ok self /\
    interpolated_data self = Finite w :: rest /\
    In q [0; 1]%Q /\
    get_interpolation_error self (fun arg => Finite (arg * 2))
    = Ok (Finite (q * 2 - w)).
Proof.
  let v := eval vm_compute in (__init__ [0; 1]%Q [0; 1]%Q [0; 1]%Q) in
  match v with
  | Ok ?self =>
      let dat := eval vm_compute in (interpolated_data self) in
      match dat with
      | Finite ?w :: ?rest =>
          destruct (interpolation_error_value self (fun arg => arg * 2)%Q
                      w 0 [1%Q] rest)
            as (q & Hin & Hg & _); [reflexivity|reflexivity|];
          exists self, q, w, rest
      end
  end.
  split; [vm_compute; reflexivity|]. split; [reflexivity|].
  split; [exact Hin|exact Hg].
Defined.

(** X12.  On an instance that the constructor returned the error metric
    raises [ValueError] when there is no query, and returns a value
    otherwise. *)
Theorem interpolation_error_no_query (args res queries : list Q)
    (self : CubicSplineInterpolator) (function : Q -> float) :
  __init__ args res queries = Ok self ->
  (queries = [] ->
   get_interpolation_error self function = Raise ValueError) /\
  (queries <> [] ->
   exists v0 e, head (interpolated_data self) = Some v0 /\
                get_interpolation_error self function = Ok e).
Proof.
  unfold __init__. intros Hinit.
  destruct (build args res _) as [sp|e]; cbn [bind] in Hinit; [|discriminate].
  destruct (comprehension (interpolate args sp) queries) as [vs|e] eqn:Hc;
    cbn [bind] in Hinit; [|discriminate].
  injection Hinit as <-. unfold get_interpolation_error. cbn.
  apply comprehension_Forall2 in Hc. split.
  - intros ->. reflexivity.
  - intros Hne. destruct queries as [|q0 qs]; [congruence|].
    inversion Hc as [|q0' v0 qs' vs' Hv0 Hrest]; subst.
    exists v0. cbn [head next_iter].
    rewrite (comprehension_map _ (fun arg => fsub (function arg) v0))
      by reflexivity.
    cbn. eauto.
Qed.

Lemma interpolation_error_no_query_witness :
  exists self,
    __init__ [0; 1]%Q [0; 1]%Q [] = Ok self /\
    get_interpolation_error self Finite = Raise ValueError.
Proof.
  eexists. split; [vm_compute; reflexivity|].
  eapply (interpolation_error_no_query [0; 1]%Q [0; 1]%Q []);
    [vm_compute; reflexivity|reflexivity].
Defined.

(** ** The report *)

Lemma string_length_app (s t : string) :
  String.length (s +:+ t) = (String.length s + String.length t)%nat.
Proof. induction s as [|ch s IH]; simpl; [reflexivity|]. now rewrite IH. Qed.

Lemma string_mul_length (ch : Ascii.ascii) (n : nat) :
  String.length (string_mul (String ch EmptyString) n) = n.
Proof.
  induction n as [|n IH]; [reflexivity|].
  cbn [string_mul]. rewrite string_length_app, IH. reflexivity.
Qed.

Lemma islice_take {A : Type} (l : list A) (n : nat) :
  (if (n <? length l)%nat then take n l else l) = take n l.
Proof.
  destruct (Nat.ltb_spec n (length l)); [reflexivity|].
  symmetry. apply take_ge. lia.
Qed.

(** X13.  [print_args_and_results] writes three lines, whatever the two
    sequences: the line of the arguments, a rule of dashes exactly as
    long as that line, and the line of the results.  Only the first
    twenty arguments and the first twenty results are shown. *)
Theorem print_args_and_results_lines (format_f : nat -> nat -> float -> string)
    (args results : list float) :
  exists first_line last_line,
    print_args_and_results format_f args results
    = [first_line; string_mul "-" (String.length first_line); last_line] /\
    String.length (string_mul "-" (String.length first_line))
    = String.length first_line /\
    first_line
    = " x | " +:+ String.concat " | " (map (format_f 6 3) (take 20 args)) /\
    last_line
    = " y | " +:+ String.concat " | " (map (format_f 6 3) (take 20 results)) /\
    print_args_and_results format_f args results
    = print_args_and_results format_f (take 20 args) (take 20 results).
Proof.
  unfold print_args_and_results. rewrite !islice_take, !take_take.
  cbn [Nat.min].
  eexists _, _. split; [|split; [|split; [|split]]]; try reflexivity.
  - rewrite (string_length_app " x | "),
      (Nat.add_comm (String.length " x | ")). reflexivity.
  - apply string_mul_length.
Qed.

Lemma print_rows_spec (format_f : nat -> nat -> float -> string)
    (slice : list Spline) :
  forall (arguments : list Q) (step : nat),
    (print_rows format_f step slice arguments).2
    = (if (length slice <=? length arguments)%nat then None
       else Some StopIteration) /\
    length (print_rows format_f step slice arguments).1
    = Nat.min (length slice) (length arguments) /\
    forall k arg spline,
      arguments !! k = Some arg -> slice !! k = Some spline ->
      (print_rows format_f step slice arguments).1 !! k
      = Some (coefficient_row format_f (step + k) arg spline).
Proof.
  induction slice as [|spline slice IH]; intros arguments step.
  - cbn. repeat split. intros k arg spline _ H. discriminate.
  - destruct arguments as [|arg arguments].
    + cbn. repeat split. intros k arg spline' H. discriminate.
    + destruct (IH arguments (S step)) as (Hr & Hl & Hk).
      change (print_rows format_f step (spline :: slice) (arg :: arguments))
        with (coefficient_row format_f step arg spline
                :: (print_rows format_f (S step) slice arguments).1,
              (print_rows format_f (S step) slice arguments).2).
      cbn [fst snd length].
      split; [exact Hr|]. split; [now rewrite Hl|].
      intros k arg' spline' Ha Hs. destruct k as [|k].
      * cbn in Ha, Hs. injection Ha as <-. injection Hs as <-.
        rewrite Nat.add_0_r. reflexivity.
      * change ((print_rows format_f (S step) slice arguments).1 !! k
                = Some (coefficient_row format_f (step + S k) arg' spline')).
        rewrite (Hk k arg' spline' Ha Hs). do 2 f_equal. lia.
Qed.

(** X14.  The table of [print_coefficients]: the header, a rule, and one line
    per shown record, the first ten records of more than ten and all but
    the last record otherwise.  Line [k] pairs record [k] with query
    [k], in place of its own knot.  With fewer queries than shown
    records the table stops after as many lines as there are queries,
    with [StopIteration]. *)
Theorem print_coefficients_table (format_f : nat -> nat -> float -> string)
    (self : CubicSplineInterpolator) :
  exists rows,
    print_coefficients format_f self
    = (table_header :: string_mul "-" 54 :: rows,
       if (shown_records (length (splines self))
           <=? length (spline_arguments self))%nat
       then None else Some StopIteration) /\
    length rows = Nat.min (shown_records (length (splines self)))
                          (length (spline_arguments self)) /\
    forall k arg spline,
      (k < shown_records (length (splines self)))%nat ->
      spline_arguments self !! k = Some arg ->
      splines self !! k = Some spline ->
      rows !! k = Some (coefficient_row format_f (S k) arg spline).
Proof.
  unfold print_coefficients.
  set (slice := if (10 <? length (splines self))%nat
                then take 10 (splines self)
                else take (length (splines self) - 1) (splines self)).
  assert (Hlen : length slice = shown_records (length (splines self))).
  { unfold slice, shown_records.
    destruct (Nat.ltb_spec 10 (length (splines self)));
      rewrite length_take; lia. }
  assert (Hlook : forall k, (k < shown_records (length (splines self)))%nat ->
                            slice !! k = splines self !! k).
  { unfold slice, shown_records.
    destruct (Nat.ltb_spec 10 (length (splines self))); intros k Hk;
      now apply lookup_take_lt. }
  destruct (print_rows_spec format_f slice (spline_arguments self) 1)
    as (Hr & Hl & Hk).
  eexists. split; [|split].
  - rewrite Hr, Hlen. reflexivity.
  - now rewrite Hl, Hlen.
  - intros k arg spline Hlt Ha Hs. apply Hk; [exact Ha|].
    now rewrite Hlook.
Qed.

Lemma shown_records_slice (l : list Spline) :
  length (if (10 <? length l)%nat then take 10 l else take (length l - 1) l)
  = shown_records (length l).
Proof.
  unfold shown_records. destruct (Nat.ltb_spec 10 (length l));
    rewrite length_take; lia.
Qed.

(** X15.  The whole report on an instance made from valid input.  With at
    least as many queries as the table shows records it completes,
    after 12 lines and one line per shown record.  With fewer queries it
    stops inside the table with [StopIteration], after 11 lines and one
    line per query, and the interpolation error is not reported. *)
Theorem print_calculations_outcome
    (format_f : nat -> nat -> float -> string) (args res queries : list Q)
    (self : CubicSplineInterpolator) (function : Q -> float) :
  valid_input args res ->
  __init__ args res queries = Ok self ->
  ((shown_records (length args) <= length queries)%nat ->
   exists out,
     print_calculations format_f self function = (out, None) /\
     length out = (12 + shown_records (length args))%nat) /\
  ((length queries < shown_records (length args))%nat ->
   exists out,
     print_calculations format_f self function = (out, Some StopIteration) /\
     length out = (11 + length queries)%nat).
Proof.
  intros Hv Hinit. pose proof Hv as (Hlen & H2 & Hasc).
  destruct (build_valid args res Hv) as (sp & Hb & Hinv).
  pose proof (inv_length _ _ _ Hinv) as Hsp.
  unfold __init__ in Hinit. rewrite Hb in Hinit. cbn [bind] in Hinit.
  destruct (comprehension (interpolate args sp) queries) as [vs|e] eqn:Hc;
    cbn [bind] in Hinit; [|discriminate].
  injection Hinit as <-. apply comprehension_Forall2 in Hc.
  unfold print_calculations, print_coefficients.
  cbn [splines spline_arguments function_arguments results interpolated_data
       fst snd].
  set (slice := if (10 <? length sp)%nat then take 10 sp
                else take (length sp - 1) sp).
  assert (Hslice : length slice = shown_records (length args)).
  { unfold slice. rewrite shown_records_slice, Hsp. reflexivity. }
  destruct (print_rows_spec format_f slice queries 1) as (Hr & Hl & _).
  rewrite Hr, Hslice. rewrite Hslice in Hl.
  assert (Hshown : (1 <= shown_records (length args))%nat).
  { unfold shown_records. destruct (Nat.ltb_spec 10 (length args)); lia. }
  split; intros Hq.
  - destruct (Nat.leb_spec (shown_records (length args)) (length queries));
      [|lia].
    destruct queries as [|q0 qs]; [simpl in Hq; lia|].
    inversion Hc as [|q0' v0 qs' vs' Hv0 Hrest]; subst.
    unfold get_interpolation_error.
    cbn [spline_arguments interpolated_data next_iter].
    rewrite (comprehension_map _ (fun arg => fsub (function arg) v0))
      by reflexivity.
    cbn [bind map py_max].
    eexists. split; [reflexivity|].
    unfold print_args_and_results. rewrite !length_app. cbn [length].
    rewrite Hl. cbn [length] in *. lia.
  - destruct (Nat.leb_spec (shown_records (length args)) (length queries));
      [lia|].
    eexists. split; [reflexivity|].
    unfold print_args_and_results. rewrite !length_app. cbn [length].
    rewrite Hl. lia.
Qed.

Lemma print_calculations_outcome_witness :
  valid_input [0; 1; 2]%Q [0; 1; 0]%Q /\
  exists self out,
    __init__ [0; 1; 2]%Q [0; 1; 0]%Q [1 # 2]%Q = Ok self /\
    print_calculations (fun _ _ _ => EmptyString) self Finite
    = (out, Some StopIteration) /\
    length out = 12%nat.
Proof.
  assert (Hv : valid_input [0; 1; 2]%Q [0; 1; 0]%Q).
  { split; [reflexivity|]. split; [simpl; lia|].
    simpl. repeat split; reflexivity. }
  split; [exact Hv|].
  let v := eval vm_compute in (__init__ [0; 1; 2]%Q [0; 1; 0]%Q [1 # 2]%Q) in
  match v with
  | Ok ?self =>
      destruct (print_calculations_outcome (fun _ _ _ => EmptyString)
                  [0; 1; 2]%Q [0; 1; 0]%Q [1 # 2]%Q self Finite Hv)
        as [_ Hstop]; [vm_compute; reflexivity|];
      destruct Hstop as (out & Hout & Hlen); [vm_compute; lia|];
      exists self, out
  end.
  split; [vm_compute; reflexivity|]. split; [exact Hout|exact Hlen].
Defined.

Lemma print_coefficients_table_witness :
  exists self rows,
    __init__ [0; 1; 2]%Q [0; 1; 0]%Q [1 # 2; 1]%Q = Ok self /\
    print_coefficients (fun _ _ _ => EmptyString) self
    = (table_header :: string_mul "-" 54 :: rows, None) /\
    length rows = 2%nat.
Proof.
  let v := eval vm_compute in (__init__ [0; 1; 2]%Q [0; 1; 0]%Q [1 # 2; 1]%Q) in
  match v with
  | Ok ?self =>
      destruct (print_coefficients_table (fun _ _ _ => EmptyString) self)
        as (rows & Hp & Hl & _);
      exists self, rows
  end.
  split; [vm_compute; reflexivity|]. split; [exact Hp|exact Hl].
Defined.

(** ** Value and second derivative at an interior knot *)


